(** * Plannotator document-review server: request resolution,
      crash-safe persistence and the one-shot review decision

    A shallow embedding of [packages/server/security.ts],
    [packages/server/storage.ts], the atomic writer and the document
    server's request handler, with the properties their specification
    states about them.

    Strings are Rocq [string]s: sequences of 8-bit code units, the
    ASCII / Latin-1 part of JavaScript's UTF-16 strings. *)

From Stdlib Require Import Ascii ZArith Lia DecimalString.
From stdpp Require Import base option list gmap strings.
From Equations Require Import Equations.

Set Default Proof Using "Type".

(** ** String primitives of the JavaScript runtime *)

Module Js.

(** The line feed of a template literal's [\n]. *)
Definition nl : string := String "010"%char "".

(** [s.startsWith(p)]. *)
Definition startsWith (s p : string) : bool := String.prefix p s.

(** [s.includes(c)] for a one-character needle. *)
Fixpoint includes_char (s : string) (c : ascii) : bool :=
  match s with
  | "" => false
  | String a r => if Ascii.eqb a c then true else includes_char r c
  end.

(** [s.includes(p)]. *)
Fixpoint includes (s p : string) : bool :=
  if String.prefix p s then true
  else match s with
       | "" => false
       | String _ r => includes r p
       end.

(** [s.slice(n)]. *)
Fixpoint drop (n : nat) (s : string) : string :=
  match n, s with
  | O, _ => s
  | S _, "" => ""
  | S k, String _ r => drop k r
  end.

(** [s.split(sep)] for a one-character separator: never the empty list. *)
Fixpoint split (sep : ascii) (s : string) : list string :=
  match s with
  | "" => [""]
  | String a r =>
      if Ascii.eqb a sep then "" :: split sep r
      else match split sep r with
           | h :: t => String a h :: t
           | [] => [String a ""]
           end
  end.

(** [parts.join(sep)]. *)
Fixpoint join (sep : string) (parts : list string) : string :=
  match parts with
  | [] => ""
  | [p] => p
  | p :: rest => p +:+ sep +:+ join sep rest
  end.

(** [s.replace(pat, rep)] with a string pattern: the first occurrence
    only.  [rep] holds no [$], so it is inserted as it is. *)
Fixpoint replace (pat rep s : string) : string :=
  if String.prefix pat s then rep +:+ drop (String.length pat) s
  else match s with
       | "" => ""
       | String a r => String a (replace pat rep r)
       end.

(** Global removal of the characters of a class. *)
Fixpoint remove_chars (cls : ascii → bool) (s : string) : string :=
  match s with
  | "" => ""
  | String a r =>
      if cls a then remove_chars cls r else String a (remove_chars cls r)
  end.

(** [s.toLowerCase()] on the ASCII letters. *)
Definition lower_char (a : ascii) : ascii :=
  let n := nat_of_ascii a in
  if (65 <=? n)%nat && (n <=? 90)%nat then ascii_of_nat (n + 32) else a.

Fixpoint toLowerCase (s : string) : string :=
  match s with
  | "" => ""
  | String a r => String (lower_char a) (toLowerCase r)
  end.

(** Decimal rendering of a number inside a template literal. *)
Definition of_nat (n : nat) : string :=
  NilZero.string_of_uint (Nat.to_uint n).

Definition of_N (n : N) : string :=
  NilZero.string_of_uint (N.to_uint n).

End Js.

(** ** The runtime's POSIX [path] module *)

Module Path.

Definition sep : ascii := "/"%char.

Definition isAbsolute (p : string) : bool :=
  match p with
  | String a _ => Ascii.eqb a sep
  | "" => false
  end.

(** [normalizeString], on the segments between separators.  Empty
    and one-dot segments vanish; a two-dot segment removes the segment
    before it, and is kept only in a relative path that has nothing
    left to remove. *)
Fixpoint normalize_segs (allowAboveRoot : bool)
    (stack segs : list string) : list string :=
  match segs with
  | [] => rev stack
  | seg :: rest =>
      if bool_decide (seg = "" ∨ seg = ".") then
        normalize_segs allowAboveRoot stack rest
      else if bool_decide (seg = "..") then
        match stack with
        | top :: below =>
            if bool_decide (top ≠ "..") then
              normalize_segs allowAboveRoot below rest
            else
              normalize_segs allowAboveRoot
                (if allowAboveRoot then ".." :: stack else stack) rest
        | [] =>
            normalize_segs allowAboveRoot
              (if allowAboveRoot then [".."] else []) rest
        end
      else normalize_segs allowAboveRoot (seg :: stack) rest
  end.

Definition normalizeString (path : string) (allowAboveRoot : bool) : string :=
  Js.join "/" (normalize_segs allowAboveRoot [] (Js.split sep path)).

Fixpoint last_char (s : string) : option ascii :=
  match s with
  | "" => None
  | String a "" => Some a
  | String _ r => last_char r
  end.

(** [path.normalize]. *)
Definition normalize (path : string) : string :=
  if bool_decide (path = "") then "."
  else
    let isAbs := isAbsolute path in
    let trailingSeparator := bool_decide (last_char path = Some sep) in
    let body := normalizeString path (negb isAbs) in
    if bool_decide (body = "") then
      if isAbs then "/" else if trailingSeparator then "./" else "."
    else
      let body := if trailingSeparator then body +:+ "/" else body in
      if isAbs then "/" +:+ body else body.

(** [path.join(...args)]. *)
Definition join (args : list string) : string :=
  match filter (λ a, a ≠ "") args with
  | [] => "."
  | parts => normalize (Js.join "/" parts)
  end.

(** The right-to-left loop of [path.resolve]: arguments are prepended
    until an absolute one is met; empty ones are skipped. *)
Fixpoint resolve_args (args : list string) : string * bool :=
  match args with
  | [] => ("", false)
  | p :: rest =>
      let '(acc, absolute) := resolve_args rest in
      if absolute then (acc, true)
      else if bool_decide (p = "") then (acc, false)
      else (p +:+ "/" +:+ acc, isAbsolute p)
  end.

(** [path.resolve(...args)] in a process whose working directory is
    [cwd], an absolute path. *)
Definition resolve (cwd : string) (args : list string) : string :=
  let '(acc, absolute) := resolve_args args in
  let full := if absolute then acc else cwd +:+ "/" +:+ acc in
  "/" +:+ normalizeString full false.

(** [path.dirname].  The scan runs from the end down to index 1:
    trailing separators are skipped, then the last segment, and the
    path is cut before the separator found there. *)
Fixpoint skip_while (f : ascii → bool) (l : list ascii) : list ascii :=
  match l with
  | a :: r => if f a then skip_while f r else l
  | [] => []
  end.

Definition dirname (path : string) : string :=
  match path with
  | "" => "."
  | String c0 tl =>
      let hasRoot := Ascii.eqb c0 sep in
      let scanned := rev (String.list_ascii_of_string tl) in
      let after_slashes := skip_while (λ a, Ascii.eqb a sep) scanned in
      match skip_while (λ a, negb (Ascii.eqb a sep)) after_slashes with
      | [] => if hasRoot then "/" else "."
      | _ :: before =>
          if hasRoot && bool_decide (before = []) then "//"
          else String c0 (String.string_of_list_ascii (rev before))
      end
  end.

(** [path.extname]: the last segment, trailing separators apart, from
    its last dot on; empty when there is no dot, when the only dot
    leads the segment, and for the segment made of two dots. *)
Definition last_segment (path : string) : string :=
  let scanned := rev (String.list_ascii_of_string path) in
  let after_slashes := skip_while (λ a, Ascii.eqb a sep) scanned in
  let seg := take (length after_slashes
                   - length (skip_while (λ a, negb (Ascii.eqb a sep))
                               after_slashes)) after_slashes in
  String.string_of_list_ascii (rev seg).

Fixpoint last_dot_suffix (s : string) : option string :=
  match s with
  | "" => None
  | String a r =>
      match last_dot_suffix r with
      | Some e => Some e
      | None => if Ascii.eqb a "."%char then Some s else None
      end
  end.

Definition extname (path : string) : string :=
  let seg := last_segment path in
  match last_dot_suffix seg with
  | None => ""
  | Some e =>
      if bool_decide (e = seg) || bool_decide (seg = "..") then "" else e
  end.

(** A segment a normalized path is made of: not empty, not one or two
    dots, and without separator. *)
Definition plain (segment : string) : bool :=
  negb (bool_decide (segment = "")) && negb (bool_decide (segment = "."))
  && negb (bool_decide (segment = "..")) && negb (Js.includes_char segment sep).

(** A relative path in normal form, as a directory scan reports its
    entries: plain segments joined by separators. *)
Definition relative_normal (path : string) : bool :=
  forallb plain (Js.split sep path).

(** An absolute path in normal form, the root apart. *)
Definition absolute_normal (path : string) : bool :=
  match path with
  | String a rest => Ascii.eqb a sep && relative_normal rest
  | "" => false
  end.

End Path.

(** Outcome of a call that may throw an [Error] with a message. *)
Inductive result (A : Type) : Type :=
| Ok (value : A)
| Throw (message : string).
Arguments Ok {A} value.
Arguments Throw {A} message.

(** ** packages/server/security.ts *)

Module Security.
Section WithCwd.

(** [process.cwd()], against which [resolve] reads relative paths. *)
Variable cwd : string.

Definition ALLOWED_IMAGE_EXTENSIONS : list string :=
  [".png"; ".jpg"; ".jpeg"; ".gif"; ".webp"; ".svg"; ".bmp"; ".ico"].

(** The test [validatePath] applies to one base. *)
Definition within (resolved resolvedBase : string) : bool :=
  bool_decide (resolved = resolvedBase)
  || Js.startsWith resolved (resolvedBase +:+ "/").

Definition validatePath (requestedPath : string)
    (allowedBases : list string) : result string :=
  let resolved := Path.resolve cwd [requestedPath] in
  let isAllowed :=
    existsb (λ base,
               let resolvedBase := Path.resolve cwd [base] in
               within resolved resolvedBase) allowedBases in
  if negb isAllowed then Throw ("Path not allowed: " +:+ requestedPath)
  else Ok resolved.

(** Containment in the allowed bases, as the specification words it:
    the resolved path is a resolved base, or such a base followed by
    the separator and more. *)
Definition contained (resolved : string) (allowedBases : list string) : Prop :=
  ∃ base, base ∈ allowedBases
    ∧ (resolved = Path.resolve cwd [base]
       ∨ ∃ rest, resolved = Path.resolve cwd [base] +:+ "/" +:+ rest).

(** The class of the two path separators, slash and backslash. *)
Definition is_separator (a : ascii) : bool :=
  Ascii.eqb a "/"%char || Ascii.eqb a "\"%char.

(** The class of control characters (codes 0 to 31 and 127) and of
    the characters < > : | ? * and the double quote (code 34). *)
Definition is_dangerous (a : ascii) : bool :=
  let n := nat_of_ascii a in
  (n <=? 31)%nat || (n =? 127)%nat
  || Ascii.eqb a "<"%char || Ascii.eqb a ">"%char || Ascii.eqb a ":"%char
  || (n =? 34)%nat || Ascii.eqb a "|"%char || Ascii.eqb a "?"%char
  || Ascii.eqb a "*"%char.

(** The class of the dot and of the white space of a regular
    expression that fits in one byte: tab to carriage return, space,
    no-break space. *)
Definition is_space_or_dot (a : ascii) : bool :=
  let n := nat_of_ascii a in
  ((9 <=? n)%nat && (n <=? 13)%nat) || (n =? 32)%nat || (n =? 160)%nat
  || Ascii.eqb a "."%char.

(** Global removal of two consecutive dots: matches are taken left
    to right and do not overlap. *)
Fixpoint remove_dotdot (s : string) : string :=
  match s with
  | "" => ""
  | String a r =>
      match r with
      | String b r' =>
          if Ascii.eqb a "."%char && Ascii.eqb b "."%char
          then remove_dotdot r'
          else String a (remove_dotdot r)
      | "" => String a ""
      end
  end.

Fixpoint trim_start (s : string) : string :=
  match s with
  | String a r => if is_space_or_dot a then trim_start r else s
  | "" => ""
  end.

Fixpoint trim_end (s : string) : string :=
  match s with
  | "" => ""
  | String a r =>
      match trim_end r with
      | "" => if is_space_or_dot a then "" else String a ""
      | kept => String a kept
      end
  end.

(** Removal of the leading and of the trailing run of white space
    and dots. *)
Definition trim (s : string) : string := trim_end (trim_start s).

Definition sanitizeFilename (filename : string) : string :=
  let sanitized := remove_dotdot (Js.remove_chars is_separator filename) in
  let sanitized := Js.remove_chars is_dangerous sanitized in
  let sanitized := trim sanitized in
  if bool_decide (sanitized = "") then "file" else sanitized.

Definition isAllowedImageExtension (filename : string) : bool :=
  let ext := Js.toLowerCase (Path.extname filename) in
  bool_decide (ext ∈ ALLOWED_IMAGE_EXTENSIONS).

Definition validateImagePath (imagePath : string)
    (allowedBases : list string) : result string :=
  match validatePath imagePath allowedBases with
  | Throw e => Throw e
  | Ok validated =>
      if negb (isAllowedImageExtension validated)
      then Throw ("Invalid image extension: " +:+ Path.extname validated)
      else Ok validated
  end.

End WithCwd.
End Security.

#[global] Instance result_ret : MRet result := λ A a, Ok a.

#[global] Instance result_bind : MBind result := λ A B k r,
  match r with
  | Ok a => k a
  | Throw e => Throw e
  end.

(** ** The file system the server reads

    A table from canonical absolute paths to the contents of the
    regular files there.  The kernel reaches a file through any
    spelling of its path: with no symbolic links and every directory
    on the way present, that is the lexical resolution of the path. *)

Module Fs.
Section WithCwd.

Variable cwd : string.

Definition key (path : string) : string := Path.resolve cwd [path].

Definition read (fs : gmap string string) (path : string) : option string :=
  fs !! key path.

(** [Bun.file(path).exists()]: whether a regular file is there; a
    directory answers [false]. *)
Definition exists_ (fs : gmap string string) (path : string) : bool :=
  bool_decide (is_Some (read fs path)).

(** [Bun.file(path).text()]. *)
Definition text (fs : gmap string string) (path : string) : result string :=
  match read fs path with
  | Some content => Ok content
  | None => Throw ("ENOENT: no such file or directory, open '" +:+ path +:+ "'")
  end.

Definition hidden (segment : string) : bool := Js.startsWith segment ".".

(** [new Bun.Glob(pattern).scan({ cwd: root, onlyFiles: true })] for a
    pattern made of the recursive wildcard, a slash and a name
    without wildcard characters: the files below [root], relative to
    it, whose last segment is that name; hidden entries are not
    visited. *)
Definition scan (fs : gmap string string) (pattern root : string)
    : result (list string) :=
  let name := Js.drop 3 pattern in
  let below := key root +:+ "/" in
  let relative := λ p : string, Js.drop (String.length below) p in
  Ok (map relative
        (filter (λ p,
                   Js.startsWith p below = true
                   ∧ last (Js.split "/" (relative p)) = Some name
                   ∧ forallb (λ seg, negb (hidden seg))
                       (Js.split "/" (relative p)) = true)
           (map fst (map_to_list fs)))).

End WithCwd.
End Fs.

(** ** The document review server *)

Module DocServer.

(** The answers of the routes.  A document is answered with status
    200 and, besides the fields kept here, with the [origin],
    [sharingEnabled] and [repoInfo] of the session; [FileResponse] is
    the file itself as the body; [OkJson] is [{ ok: true }]. *)
Inductive response : Type :=
| DocJson (markdown filepath : string) (isMain readOnly : bool)
| ErrorJson (status : nat) (error : string)
| TextResponse (status : nat) (body : string)
| FileResponse (path : string)
| OkJson.

(** What the handlers ask of the runtime. *)
Record Runtime : Type := {
  cwd : string;
  homedir : string;
  file_exists : string → bool;
  file_text : string → result string;
  glob_scan : string → string → result (list string)
}.

Definition on_disk (cwd home : string) (fs : gmap string string) : Runtime :=
  {| cwd := cwd; homedir := home;
     file_exists := Fs.exists_ cwd fs;
     file_text := Fs.text cwd fs;
     glob_scan := Fs.scan cwd fs |}.

(** The options [startDocServer] keeps for its handlers; [projectRoot]
    is the option or, without it, the working directory at start. *)
Record Session : Type := {
  markdown : string;
  filepath : string;
  projectRoot : string
}.

(** Result of the resolution strategies of the linked-document
    handler: the path left in [resolvedPath] with the [found] flag, or
    the early return for an ambiguous bare filename. *)
Inductive located : Type :=
| Chosen (resolvedPath : string) (found : bool)
| Ambiguous (matches : list string).

Section Handlers.

Variable rt : Runtime.
Variable session : Session.

Definition resolve (args : list string) : string := Path.resolve (cwd rt) args.

Definition baseDir : string := Path.dirname (resolve [filepath session]).

(** The loop over [glob.scan]: the matches whose file name is the
    request, as absolute paths. *)
Definition glob_matches (requestedPath : string) : result (list string) :=
  scanned ← glob_scan rt ("**/" +:+ requestedPath) (projectRoot session);
  Ok (map (λ m, resolve [projectRoot session; m])
        (filter (λ m, last (Js.split "/" m) = Some requestedPath) scanned)).

(** The strategies, in order: an absolute request as it is; the
    request resolved against the document's directory; against the
    project root; and for a request without separator the search
    below the project root. *)
Definition locate (requestedPath : string) : result located :=
  if Js.startsWith requestedPath "/" then
    Ok (Chosen requestedPath (file_exists rt requestedPath))
  else
    let resolvedPath := resolve [baseDir; requestedPath] in
    let found := file_exists rt resolvedPath in
    let '(resolvedPath, found) :=
      if negb found then
        let projectResolved := resolve [projectRoot session; requestedPath] in
        if file_exists rt projectResolved then (projectResolved, true)
        else (resolvedPath, found)
      else (resolvedPath, found) in
    if negb found && negb (Js.includes_char requestedPath "/") then
      matches ← glob_matches requestedPath;
      match matches with
      | [] => Ok (Chosen resolvedPath found)
      | [m] => Ok (Chosen m true)
      | _ => Ok (Ambiguous matches)
      end
    else Ok (Chosen resolvedPath found).

(** SEC-1. *)
Definition isAllowed (resolvedPath : string) : bool :=
  existsb (λ base, Security.within resolvedPath base)
    [baseDir; projectRoot session].

Definition ambiguous_message (requestedPath : string)
    (matches : list string) : string :=
  let relativePaths :=
    map (λ m, Js.replace (projectRoot session +:+ "/") "" m) matches in
  "Ambiguous filename '" +:+ requestedPath +:+ "' - found "
    +:+ Js.of_nat (length matches) +:+ " matches:" +:+ Js.nl
    +:+ Js.join Js.nl relativePaths.

Definition linked_document (requestedPath : string) : response :=
  match locate requestedPath with
  | Throw message => ErrorJson 500 message
  | Ok (Ambiguous matches) =>
      ErrorJson 400 (ambiguous_message requestedPath matches)
  | Ok (Chosen resolvedPath found) =>
      if negb (isAllowed resolvedPath) then
        ErrorJson 403 "Path traversal attempt blocked"
      else if negb found then
        ErrorJson 404 ("File not found: " +:+ requestedPath)
      else
        match file_text rt resolvedPath with
        | Ok content => DocJson content resolvedPath false true
        | Throw message => ErrorJson 500 message
        end
  end.

(** [GET /api/doc?path=&readonly=]. *)
Definition api_doc (path readonly : option string) : response :=
  match path with
  | Some requestedPath =>
      if bool_decide (requestedPath = "") then
        DocJson (markdown session) (filepath session) true
          (bool_decide (readonly = Some "true"))
      else linked_document requestedPath
  | None =>
      DocJson (markdown session) (filepath session) true
        (bool_decide (readonly = Some "true"))
  end.

(** [/api/image?path=]. *)
Definition api_image (path : option string) : response :=
  match path with
  | None => TextResponse 400 "Missing path parameter"
  | Some imagePath =>
      if bool_decide (imagePath = "") then
        TextResponse 400 "Missing path parameter"
      else
        let allowedBases := ["/tmp/plannotator"; homedir rt; baseDir] in
        match Security.validatePath (cwd rt) imagePath allowedBases with
        | Ok validatedPath =>
            if negb (file_exists rt validatedPath)
            then TextResponse 404 "File not found"
            else FileResponse validatedPath
        | Throw message =>
            if Js.includes message "Path not allowed"
            then TextResponse 403 "Access denied"
            else TextResponse 500 "Failed to read file"
        end
  end.

End Handlers.

(** *** The decision promise and the two routes that resolve it *)

(** A promise is pending or fulfilled.  Its resolving function acts
    once: the promise remembers that it was resolved, and later calls
    return without effect. *)
Inductive promise (A : Type) : Type :=
| Pending
| Fulfilled (value : A).
Arguments Pending {A}.
Arguments Fulfilled {A} value.

(** What a consumer awaiting the promise has received so far. *)
Definition awaited {A} (p : promise A) : option A :=
  match p with
  | Pending => None
  | Fulfilled v => Some v
  end.

(** What [req.json()] gives for a request body.  A body that is
    absent, empty or not JSON rejects with a syntax error.  The cast
    of the handlers fixes the fields of an object; a JSON number,
    string, boolean or array has none of these fields and reads as the
    object without fields; [null] has no fields to read. *)
Inductive body (A : Type) : Type :=
| Unparsable (message : string)
| JsonNull
| JsonObject (fields : A).
Arguments Unparsable {A} message.
Arguments JsonNull {A}.
Arguments JsonObject {A} fields.

Definition req_json {A} (b : body A) : result (option A) :=
  match b with
  | Unparsable message => Throw message
  | JsonNull => Ok None
  | JsonObject fields => Ok (Some fields)
  end.

(** [promise.catch(() => fallback)]. *)
Definition catch {A} (r : result A) (fallback : A) : result A :=
  match r with
  | Ok a => Ok a
  | Throw _ => Ok fallback
  end.

(** Reading a property: a type error on [null], in the wording of
    JavaScriptCore. *)
Definition get {A B} (expression : string) (object : option A)
    (field : A → B) : result B :=
  match object with
  | Some fields => Ok (field fields)
  | None =>
      Throw ("null is not an object (evaluating '" +:+ expression +:+ "')")
  end.

Section Broker.

(** Annotation records are opaque to the server. *)
Variable annotation : Type.
Variable session : Session.

Record Decision : Type := {
  approved : bool;
  feedback : option string;
  annotations : option (list annotation);
  agentSwitch : option string
}.

Definition resolveDecision (d : Decision) (p : promise Decision)
    : promise Decision :=
  match p with
  | Pending => Fulfilled d
  | Fulfilled _ => p
  end.

Record ApproveBody : Type := { approve_agentSwitch : option string }.

Record LinkedDocs : Type := {
  viewed : list string;
  requested : list string
}.

Record FeedbackBody : Type := {
  body_feedback : option string;
  body_annotations : option (list annotation);
  body_agentSwitch : option string;
  body_linkedDocs : option LinkedDocs
}.

(** The decision [POST /api/approve] passes to [resolveDecision], or
    the error its [try] block catches. *)
Definition approve_decision (b : body ApproveBody) : result Decision :=
  parsed ← catch (req_json b) (Some {| approve_agentSwitch := None |});
  switch ← get "body.agentSwitch" parsed approve_agentSwitch;
  Ok {| approved := true;
        feedback := Some "LGTM - no changes needed";
        annotations := None;
        agentSwitch := switch |}.

Definition lines (f : string → string) (paths : list string) : string :=
  foldr (λ path acc, f path +:+ acc) "" paths.

Definition linked_docs_section (linkedDocs : LinkedDocs) : string :=
  if bool_decide (0 < length (viewed linkedDocs))
     || bool_decide (0 < length (requested linkedDocs))
  then
    Js.nl +:+ Js.nl +:+ "---" +:+ Js.nl +:+ "## Linked Documents" +:+ Js.nl
    +:+ lines (λ path, "- " +:+ path +:+ " **(review requested)**" +:+ Js.nl)
          (requested linkedDocs)
    +:+ lines (λ path,
                 if bool_decide (path ∈ requested linkedDocs) then ""
                 else "- " +:+ path +:+ " (viewed only)" +:+ Js.nl)
          (viewed linkedDocs)
    +:+ (if bool_decide (0 < length (requested linkedDocs)) then
           Js.nl +:+ "To review requested documents, run:" +:+ Js.nl
           +:+ lines (λ path, "`/plannotator-doc " +:+ path +:+ "`" +:+ Js.nl)
                 (requested linkedDocs)
         else "")
  else "".

Definition status_envelope : string :=
  Js.nl +:+ "---" +:+ Js.nl +:+ "**Status: CHANGES REQUESTED**" +:+ Js.nl
  +:+ "After applying changes, re-run: `/plannotator-doc "
  +:+ filepath session +:+ "`" +:+ Js.nl.

(** The decision [POST /api/feedback] passes to [resolveDecision], or
    the error its [try] block catches. *)
Definition feedback_decision (b : body FeedbackBody) : result Decision :=
  parsed ← req_json b;
  text ← get "body.feedback" parsed body_feedback;
  let enhancedFeedback := default "" text in
  linkedDocs ← get "body.linkedDocs" parsed body_linkedDocs;
  let enhancedFeedback :=
    enhancedFeedback +:+ from_option linked_docs_section "" linkedDocs in
  let enhancedFeedback := enhancedFeedback +:+ status_envelope in
  notes ← get "body.annotations" parsed body_annotations;
  switch ← get "body.agentSwitch" parsed body_agentSwitch;
  Ok {| approved := false;
        feedback := Some enhancedFeedback;
        annotations := Some (default [] notes);
        agentSwitch := switch |}.

(** Both routes end the same way: the decision resolves the promise
    and the answer is [{ ok: true }], or the caught error is answered
    with status 500 and the promise is not touched. *)
Definition fulfil (d : result Decision) (broker : promise Decision)
    : promise Decision * response :=
  match d with
  | Ok decision => (resolveDecision decision broker, OkJson)
  | Throw message => (broker, ErrorJson 500 message)
  end.

Definition api_approve (b : body ApproveBody) := fulfil (approve_decision b).

Definition api_feedback (b : body FeedbackBody) := fulfil (feedback_decision b).

Inductive request : Type :=
| Approve (b : body ApproveBody)
| Feedback (b : body FeedbackBody).

Definition handle (r : request) (broker : promise Decision)
    : promise Decision * response :=
  match r with
  | Approve b => api_approve b broker
  | Feedback b => api_feedback b broker
  end.

(** The decision a request would deliver, if its handler gets as far
    as [resolveDecision]. *)
Definition payload (r : request) : result Decision :=
  match r with
  | Approve b => approve_decision b
  | Feedback b => feedback_decision b
  end.

(** Requests handled one after the other, in the order in which they
    reach [resolveDecision]. *)
Fixpoint serve (rs : list request) (broker : promise Decision)
    : promise Decision * list response :=
  match rs with
  | [] => (broker, [])
  | r :: rest =>
      let '(broker, answer) := handle r broker in
      let '(broker, answers) := serve rest broker in
      (broker, answer :: answers)
  end.

End Broker.

Arguments approved {annotation} _.
Arguments feedback {annotation} _.
Arguments annotations {annotation} _.
Arguments agentSwitch {annotation} _.
Arguments resolveDecision {annotation} d p.
Arguments feedback_decision {annotation} session b.
Arguments fulfil {annotation} d broker.
Arguments api_feedback {annotation} session b broker.
Arguments handle {annotation} session r broker.
Arguments payload {annotation} session r.
Arguments serve {annotation} session rs broker.
Arguments Approve {annotation} b.
Arguments Feedback {annotation} b.

End DocServer.

(** ** The atomic writer *)

Module Atomic.

(** A call returns a value or throws; [error] is the thrown value. *)
Inductive outcome (error A : Type) : Type :=
| Returned (value : A)
| Thrown (e : error).
Arguments Returned {error A} value.
Arguments Thrown {error A} e.

(** Where the file system may refuse an operation of one
    [atomicWrite]: the error thrown at each step that fails, and for
    a failed write what it left at its path, if anything. *)
Record Faults (error : Type) : Type := {
  mkdir_fault : option error;
  write_fault : option (error * option string);
  rename_fault : option error;
  unlink_fault : option error
}.
Arguments mkdir_fault {error}.
Arguments write_fault {error}.
Arguments rename_fault {error}.
Arguments unlink_fault {error}.

Section Writer.

Variable error : Type.
Variable cwd : string.
(** The error of an operation on a path that has no file. *)
Variable enoent : string → error.
Variable faults : Faults error.
(** The value of [crypto.randomUUID()]. *)
Variable uuid : string.

(** Operations run on the file table and may throw. *)
Definition M (A : Type) : Type :=
  gmap string string → gmap string string * outcome error A.

Definition ret {A} (a : A) : M A := λ fs, (fs, Returned a).

Definition throw {A} (e : error) : M A := λ fs, (fs, Thrown e).

Definition bind {A B} (m : M A) (k : A → M B) : M B := λ fs,
  match m fs with
  | (fs', Returned a) => k a fs'
  | (fs', Thrown e) => (fs', Thrown e)
  end.

Definition try_catch {A} (m : M A) (handler : error → M A) : M A := λ fs,
  match m fs with
  | (fs', Returned a) => (fs', Returned a)
  | (fs', Thrown e) => handler e fs'
  end.

Notation "x <- m ;; k" := (bind m (λ x, k))
  (at level 100, m at next level, right associativity).
Notation "m ;; k" := (bind m (λ _, k))
  (at level 100, right associativity).

Definition key (path : string) : string := Fs.key cwd path.

(** [mkdirSync(dir, { recursive: true })]: directories are not
    entries of the table. *)
Definition mkdirSync (dir : string) : M unit :=
  match mkdir_fault faults with
  | Some e => throw e
  | None => ret ()
  end.

(** [Bun.write(path, content)]: the whole content, or an error that
    leaves the path as it was or with whatever part was written. *)
Definition Bun_write (path content : string) : M nat := λ fs,
  match write_fault faults with
  | Some (e, Some partial) => (<[key path := partial]> fs, Thrown e)
  | Some (e, None) => (fs, Thrown e)
  | None => (<[key path := content]> fs, Returned (String.length content))
  end.

(** [renameSync(from, to)]: one step that moves the file, or an error
    that changes nothing. *)
Definition renameSync (from to : string) : M unit := λ fs,
  match rename_fault faults with
  | Some e => (fs, Thrown e)
  | None =>
      match fs !! key from with
      | Some content => (<[key to := content]> (delete (key from) fs), Returned ())
      | None => (fs, Thrown (enoent from))
      end
  end.

Definition existsSync (path : string) : M bool := λ fs,
  (fs, Returned (bool_decide (is_Some (fs !! key path)))).

Definition unlinkSync (path : string) : M unit := λ fs,
  match unlink_fault faults with
  | Some e => (fs, Thrown e)
  | None =>
      match fs !! key path with
      | Some _ => (delete (key path) fs, Returned ())
      | None => (fs, Thrown (enoent path))
      end
  end.

Definition tempPath (targetPath : string) : string :=
  Path.join [Path.dirname targetPath; ".tmp-" +:+ uuid].

Definition atomicWrite (targetPath content : string) : M string :=
  let dir := Path.dirname targetPath in
  mkdirSync dir ;;
  let tempPath := Path.join [dir; ".tmp-" +:+ uuid] in
  try_catch
    (Bun_write tempPath content ;;
     renameSync tempPath targetPath ;;
     ret targetPath)
    (λ err,
       try_catch
         (present <- existsSync tempPath ;;
          if present : bool then unlinkSync tempPath else ret ())
         (λ _, ret ()) ;;
       throw err).

(** A later read of a path. *)
Definition readFile (fs : gmap string string) (path : string)
    : option string :=
  fs !! key path.

(** The error of the first step of [atomicWrite] that the file system
    refuses: [mkdirSync], then the write, then the rename. *)
Definition first_failure : option error :=
  match mkdir_fault faults with
  | Some e => Some e
  | None =>
      match write_fault faults with
      | Some (e, _) => Some e
      | None => rename_fault faults
      end
  end.

End Writer.
End Atomic.

(** ** packages/server/storage.ts *)

Module Storage.
Section Slugs.

Variable cwd : string.
(** [os.homedir()]. *)
Variable homedir : string.
(** The storage directory's file table at the time of the call. *)
Variable fs : gmap string string.
(** [Date.now()]: milliseconds since the epoch. *)
Variable now : N.
(** [new Date().toISOString().split(T)[0]]: the day, as YYYY-MM-DD. *)
Variable today : string.
(** The first heading of a plan, found by a regular expression. *)
Variable extractFirstHeading : string → option string.
(** [sanitizeTag] of [./project]. *)
Variable sanitizeTag : string → string.
(** The error of [mkdirSync], when it fails. *)
Variable mkdir_fault : option string.

(** [existsSync(path)], in a directory that holds regular files. *)
Definition existsSync (path : string) : bool := Fs.exists_ cwd fs path.

Definition getPlanDir (customPath : option string) : result string :=
  let planDir :=
    match customPath with
    | Some custom =>
        if bool_decide (custom = "") then
          Path.join [homedir; ".plannotator"; "plans"]
        else if Js.startsWith custom "~"
        then Path.join [homedir; Js.drop 1 custom]
        else custom
    | None => Path.join [homedir; ".plannotator"; "plans"]
    end in
  match mkdir_fault with
  | Some message => Throw message
  | None => Ok planDir
  end.

(** Whether the plan file of a slug is in the directory. *)
Definition taken (planDir slug : string) : bool :=
  existsSync (Path.join [planDir; slug +:+ ".md"]).

Definition truthy (s : option string) : option string :=
  match s with
  | Some text => if bool_decide (text = "") then None else Some text
  | None => None
  end.

Definition generateSlug (plan : string) : string :=
  let heading := truthy (extractFirstHeading plan) in
  let slug := truthy (sanitizeTag <$> heading) in
  match slug with
  | Some tag => today +:+ "-" +:+ tag
  | None => today +:+ "-plan"
  end.

(** The loop [while (counter < 1000)]. *)
Equations? next_free (planDir baseSlug : string) (counter : nat) : string
  by wf (1000 - counter) lt :=
  next_free planDir baseSlug counter with decide (counter < 1000) := {
    | left _ =>
        let slug := baseSlug +:+ "-" +:+ Js.of_nat counter in
        let filePath := Path.join [planDir; slug +:+ ".md"] in
        if negb (existsSync filePath) then slug
        else next_free planDir baseSlug (S counter)
    | right _ => baseSlug +:+ "-" +:+ Js.of_N now }.
Proof. lia. Qed.

Definition generateUniqueSlug (plan : string) (customPath : option string)
    : result string :=
  let baseSlug := generateSlug plan in
  planDir ← getPlanDir customPath;
  let basePath := Path.join [planDir; baseSlug +:+ ".md"] in
  if negb (existsSync basePath) then Ok baseSlug
  else Ok (next_free planDir baseSlug 2).

End Slugs.
End Storage.

(** ** The atomic writer of several files *)

Module AtomicBatch.

(** Where the file system may refuse an operation of one
    [atomicWriteMultiple]: per entry of the batch, the error of its
    [mkdirSync], of its write (with what the failed write left) and of
    its rename; per temporary file of the clean-up, the error of its
    [unlinkSync]. *)
Record Faults (error : Type) : Type := {
  mkdir_fault : nat → option error;
  write_fault : nat → option (error * option string);
  rename_fault : nat → option error;
  unlink_fault : nat → option error
}.
Arguments mkdir_fault {error}.
Arguments write_fault {error}.
Arguments rename_fault {error}.
Arguments unlink_fault {error}.

(** The file table and the two arrays of the function. *)
Record State : Type := {
  files : gmap string string;
  tempFiles : list string;
  results : list string
}.

Section Writer.

Variable error : Type.
Variable cwd : string.
Variable enoent : string → error.
(** The type error of a read of an array past its end. *)
Variable undefined_path : error.
Variable faults : Faults error.
(** The value of [crypto.randomUUID()] for each entry. *)
Variable uuid : nat → string.

Definition M (A : Type) : Type := State → State * Atomic.outcome error A.

Definition ret {A} (a : A) : M A := λ st, (st, Atomic.Returned a).

Definition throw {A} (e : error) : M A := λ st, (st, Atomic.Thrown e).

Definition bind {A B} (m : M A) (k : A → M B) : M B := λ st,
  match m st with
  | (st', Atomic.Returned a) => k a st'
  | (st', Atomic.Thrown e) => (st', Atomic.Thrown e)
  end.

Definition try_catch {A} (m : M A) (handler : error → M A) : M A := λ st,
  match m st with
  | (st', Atomic.Returned a) => (st', Atomic.Returned a)
  | (st', Atomic.Thrown e) => handler e st'
  end.

Notation "x <- m ;; k" := (bind m (λ x, k))
  (at level 100, m at next level, right associativity).
Notation "m ;; k" := (bind m (λ _, k))
  (at level 100, right associativity).

Definition key (path : string) : string := Fs.key cwd path.

Definition with_files (st : State) (fs : gmap string string) : State :=
  {| files := fs; tempFiles := tempFiles st; results := results st |}.

Definition mkdirSync (i : nat) (dir : string) : M unit :=
  match mkdir_fault faults i with
  | Some e => throw e
  | None => ret ()
  end.

Definition Bun_write (i : nat) (path content : string) : M nat := λ st,
  match write_fault faults i with
  | Some (e, Some partial) =>
      (with_files st (<[key path := partial]> (files st)), Atomic.Thrown e)
  | Some (e, None) => (st, Atomic.Thrown e)
  | None =>
      (with_files st (<[key path := content]> (files st)),
       Atomic.Returned (String.length content))
  end.

Definition renameSync (i : nat) (from to : string) : M unit := λ st,
  match rename_fault faults i with
  | Some e => (st, Atomic.Thrown e)
  | None =>
      match files st !! key from with
      | Some content =>
          (with_files st (<[key to := content]> (delete (key from) (files st))),
           Atomic.Returned ())
      | None => (st, Atomic.Thrown (enoent from))
      end
  end.

Definition existsSync (path : string) : M bool := λ st,
  (st, Atomic.Returned (bool_decide (is_Some (files st !! key path)))).

Definition unlinkSync (j : nat) (path : string) : M unit := λ st,
  match unlink_fault faults j with
  | Some e => (st, Atomic.Thrown e)
  | None =>
      match files st !! key path with
      | Some _ => (with_files st (delete (key path) (files st)), Atomic.Returned ())
      | None => (st, Atomic.Thrown (enoent path))
      end
  end.

(** [tempFiles.push(tempPath)]. *)
Definition push_temp (tempPath : string) : M unit := λ st,
  ({| files := files st; tempFiles := tempFiles st ++ [tempPath];
      results := results st |}, Atomic.Returned ()).

(** [results.push(path)]. *)
Definition push_result (path : string) : M unit := λ st,
  ({| files := files st; tempFiles := tempFiles st;
      results := results st ++ [path] |}, Atomic.Returned ()).

(** [tempFiles[i]]. *)
Definition temp_at (i : nat) : M string := λ st,
  match tempFiles st !! i with
  | Some tempPath => (st, Atomic.Returned tempPath)
  | None => (st, Atomic.Thrown undefined_path)
  end.

Definition tempPath (i : nat) (targetPath : string) : string :=
  Path.join [Path.dirname targetPath; ".tmp-" +:+ uuid i].

(** Phase 1, from entry [i] on. *)
Fixpoint write_temps (i : nat) (writes : list (string * string)) : M unit :=
  match writes with
  | [] => ret ()
  | (targetPath, content) :: rest =>
      let dir := Path.dirname targetPath in
      mkdirSync i dir ;;
      let tempPath := Path.join [dir; ".tmp-" +:+ uuid i] in
      Bun_write i tempPath content ;;
      push_temp tempPath ;;
      write_temps (S i) rest
  end.

(** Phase 2, from entry [i] on. *)
Fixpoint rename_temps (i : nat) (writes : list (string * string)) : M unit :=
  match writes with
  | [] => ret ()
  | (targetPath, _) :: rest =>
      tempPath <- temp_at i ;;
      renameSync i tempPath targetPath ;;
      push_result targetPath ;;
      rename_temps (S i) rest
  end.

(** The loop of the [catch] block, from temporary file [j] on. *)
Fixpoint clean_up (j : nat) (temps : list string) : M unit :=
  match temps with
  | [] => ret ()
  | tempPath :: rest =>
      try_catch
        (present <- existsSync tempPath ;;
         if present : bool then unlinkSync j tempPath else ret ())
        (λ _, ret ()) ;;
      clean_up (S j) rest
  end.

Definition run (writes : list (string * string)) : M (list string) :=
  try_catch
    (write_temps 0 writes ;;
     rename_temps 0 writes ;;
     λ st, (st, Atomic.Returned (results st)))
    (λ err,
       (λ st, clean_up 0 (tempFiles st) st) ;;
       throw err).

Definition atomicWriteMultiple (writes : list (string * string))
    (fs : gmap string string)
    : gmap string string * Atomic.outcome error (list string) :=
  let '(st, out) := run writes {| files := fs; tempFiles := []; results := [] |} in
  (files st, out).

(** The temporary files of a batch, entry by entry. *)
Fixpoint temps_from (i : nat) (writes : list (string * string)) : list string :=
  match writes with
  | [] => []
  | (targetPath, _) :: rest => tempPath i targetPath :: temps_from (S i) rest
  end.

(** The first entry from [i] on whose [mkdirSync] or write is refused:
    its position in the list, the error, and what the write left. *)
Fixpoint first_write_fault (i : nat) (writes : list (string * string))
    : option (nat * error * option string) :=
  match writes with
  | [] => None
  | _ :: rest =>
      match mkdir_fault faults i, write_fault faults i with
      | Some e, _ => Some (0, e, None)
      | None, Some (e, remains) => Some (0, e, remains)
      | None, None =>
          match first_write_fault (S i) rest with
          | Some (n, e, remains) => Some (S n, e, remains)
          | None => None
          end
      end
  end.

(** The file table once phase 1 has written the temporary files of
    the entries from [i] on. *)
Fixpoint staged (i : nat) (writes : list (string * string))
    (fs : gmap string string) : gmap string string :=
  match writes with
  | [] => fs
  | (targetPath, content) :: rest =>
      staged (S i) rest (<[key (tempPath i targetPath) := content]> fs)
  end.

(** The file table once phase 2 has moved the temporary files of the
    entries from [i] on to their targets. *)
Fixpoint committed (i : nat) (writes : list (string * string))
    (fs : gmap string string) : gmap string string :=
  match writes with
  | [] => fs
  | (targetPath, content) :: rest =>
      committed (S i) rest
        (<[key targetPath := content]> (delete (key (tempPath i targetPath)) fs))
  end.

(** The file table once the clean-up has gone through the temporary
    files from the one numbered [j] on: a file that is there goes,
    unless its [unlinkSync] is refused. *)
Fixpoint swept (j : nat) (temps : list string) (fs : gmap string string)
    : gmap string string :=
  match temps with
  | [] => fs
  | tempPath :: rest =>
      swept (S j) rest
        (match fs !! key tempPath, unlink_fault faults j with
         | Some _, None => delete (key tempPath) fs
         | _, _ => fs
         end)
  end.

(** The first entry from [i] on whose rename is refused. *)
Fixpoint first_rename_fault (i : nat) (writes : list (string * string))
    : option (nat * error) :=
  match writes with
  | [] => None
  | _ :: rest =>
      match rename_fault faults i with
      | Some e => Some (0, e)
      | None =>
          match first_rename_fault (S i) rest with
          | Some (n, e) => Some (S n, e)
          | None => None
          end
      end
  end.

End Writer.
End AtomicBatch.

(** ** The savers of packages/server/storage.ts *)

Module StorageSave.
Section Savers.

Variable cwd : string.
Variable homedir : string.
(** The error of the [mkdirSync] of [getPlanDir], when it fails. *)
Variable dir_fault : option string.
(** What the file system refuses to the atomic write. *)
Variable faults : Atomic.Faults string.
Variable enoent : string → string.
Variable uuid : string.

Definition atomicWrite : string → string → Atomic.M string string :=
  Atomic.atomicWrite string cwd enoent faults uuid.

(** A writer that first asks for the plan directory. *)
Definition in_plan_dir (customPath : option string)
    (write : string → Atomic.M string string) : Atomic.M string string :=
  match Storage.getPlanDir homedir dir_fault customPath with
  | Throw message => Atomic.throw string message
  | Ok planDir => write planDir
  end.

Definition savePlan (slug content : string) (customPath : option string)
    : Atomic.M string string :=
  in_plan_dir customPath (λ planDir,
    let filePath := Path.join [planDir; slug +:+ ".md"] in
    atomicWrite filePath content).

Definition saveAnnotations (slug diffContent : string)
    (customPath : option string) : Atomic.M string string :=
  in_plan_dir customPath (λ planDir,
    let filePath := Path.join [planDir; slug +:+ ".diff.md"] in
    atomicWrite filePath diffContent).

Inductive status : Type := approved | denied.

Definition status_text (s : status) : string :=
  match s with
  | approved => "approved"
  | denied => "denied"
  end.

(** The plan, followed by the diff when there is one to show. *)
Definition snapshot_content (plan diff : string) : string :=
  if negb (bool_decide (diff = ""))
     && negb (bool_decide (diff = "No changes detected."))
  then plan +:+ (Js.nl +:+ Js.nl +:+ "---" +:+ Js.nl +:+ Js.nl) +:+ diff
  else plan.

Definition saveFinalSnapshot (slug : string) (s : status) (plan diff : string)
    (customPath : option string) : Atomic.M string string :=
  in_plan_dir customPath (λ planDir,
    let filePath :=
      Path.join [planDir; slug +:+ "-" +:+ status_text s +:+ ".md"] in
    atomicWrite filePath (snapshot_content plan diff)).

End Savers.
End StorageSave.

(** ** The first heading of a plan (packages/server/storage.ts) *)

Module Headings.

(** The white space of a regular expression and of [trim] that fits in
    one byte, line terminators included. *)
Definition is_space (a : ascii) : bool :=
  let n := nat_of_ascii a in
  ((9 <=? n)%nat && (n <=? 13)%nat) || (n =? 32)%nat || (n =? 160)%nat.

(** Line feed and carriage return: what the dot of a regular expression
    does not match, and where a line ends and the next begins. *)
Definition is_line_terminator (a : ascii) : bool :=
  let n := nat_of_ascii a in (n =? 10)%nat || (n =? 13)%nat.

Fixpoint take_while (f : ascii → bool) (s : string) : string :=
  match s with
  | String a r => if f a then String a (take_while f r) else ""
  | "" => ""
  end.

Fixpoint drop_while (f : ascii → bool) (s : string) : string :=
  match s with
  | String a r => if f a then drop_while f r else s
  | "" => ""
  end.

Fixpoint drop_while_end (f : ascii → bool) (s : string) : string :=
  match s with
  | "" => ""
  | String a r =>
      match drop_while_end f r with
      | "" => if f a then "" else String a ""
      | kept => String a kept
      end
  end.

(** [s.trim()]. *)
Definition trim (s : string) : string :=
  drop_while_end is_space (drop_while is_space s).

(** The last character of a run of white space that is no line
    terminator, if there is one. *)
Fixpoint last_on_line (run : string) : option ascii :=
  match run with
  | "" => None
  | String a r =>
      match last_on_line r with
      | Some b => Some b
      | None => if is_line_terminator a then None else Some a
      end
  end.

(** The capture of the heading pattern at the start of a line: the
    hash mark, a run of white space as long as possible, and the rest
    of the line, which is not empty.  White space runs across lines;
    when it runs to the end of the text, the run gives back its last
    character that can stand for the rest of a line. *)
Definition heading_here (s : string) : option string :=
  match s with
  | String "#"%char rest =>
      match take_while is_space rest, drop_while is_space rest with
      | "", _ => None
      | String _ _, String b after =>
          Some (take_while (λ a, negb (is_line_terminator a)) (String b after))
      | String _ run, "" =>
          match last_on_line run with
          | Some a => Some (String a "")
          | None => None
          end
      end
  | _ => None
  end.

(** The leftmost match of the pattern, tried at every start of a line. *)
Fixpoint search (line_start : bool) (s : string) : option string :=
  match (if line_start then heading_here s else None) with
  | Some capture => Some capture
  | None =>
      match s with
      | "" => None
      | String a r => search (is_line_terminator a) r
      end
  end.

Definition extractFirstHeading (markdown : string) : option string :=
  trim <$> search true markdown.

End Headings.

(** ** The upload route of the document server *)

Module Upload.

(** The file of a multipart form: its name, its size in bytes and its
    bytes. *)
Record File : Type := {
  name : string;
  size : N;
  data : string
}.

(** What [req.formData()] and the read of the field give. *)
Inductive form : Type :=
| FormRejected (message : string)
| NoFile
| FileField (file : File).

Inductive response : Type :=
| Uploaded (path : string)
| Refused (status : nat) (text : string)
| Failed (message : string).

Definition MAX_FILE_SIZE : N := 10 * 1024 * 1024.

Definition tempDir : string := "/tmp/plannotator".

Section Route.

Variable cwd : string.
(** What the file system refuses: only [mkdirSync] and the write are
    called. *)
Variable faults : Atomic.Faults string.
Variable uuid : string.

(** The piece after the last dot of the sanitized name, or [png]. *)
Definition extension (filename : string) : string :=
  let safeFilename := Security.sanitizeFilename filename in
  match last (Js.split "." safeFilename) with
  | Some piece => if bool_decide (piece = "") then "png" else piece
  | None => "png"
  end.

Definition tempPath (filename : string) : string :=
  tempDir +:+ "/" +:+ uuid +:+ "." +:+ extension filename.

Definition api_upload (f : form) (fs : gmap string string)
    : gmap string string * response :=
  match f with
  | FormRejected message => (fs, Failed message)
  | NoFile => (fs, Refused 400 "No file provided")
  | FileField file =>
      if (MAX_FILE_SIZE <? size file)%N then
        (fs, Refused 413 "File too large (max 10MB)")
      else if negb (Security.isAllowedImageExtension (name file)) then
        (fs, Refused 415 "File type not allowed")
      else
        match Atomic.bind string (Atomic.mkdirSync string faults tempDir)
                (λ _, Atomic.Bun_write string cwd faults
                        (tempPath (name file)) (data file)) fs with
        | (fs', Atomic.Returned _) => (fs', Uploaded (tempPath (name file)))
        | (fs', Atomic.Thrown message) => (fs', Failed message)
        end
  end.

End Route.
End Upload.

(** ** The start of the server: binding the port *)

Module Startup.

Definition MAX_RETRIES : nat := 5.
Definition RETRY_DELAY_MS : nat := 500.

(** One call of [Bun.serve]: a server, or an error with its message. *)
Inductive bound (server : Type) : Type :=
| Listening (s : server)
| BindError (message : string).
Arguments Listening {server} s.
Arguments BindError {server} message.

(** The outcome of the start and the delays slept on the way, in
    milliseconds. *)
Record started (server : Type) : Type := {
  outcome : result server;
  sleeps : list nat
}.
Arguments outcome {server}.
Arguments sleeps {server}.

Section Retry.

Variable server : Type.
(** What the call of [Bun.serve] gives at each attempt, from 1 on. *)
Variable serve : nat → bound server.
Variable isRemote : bool.
Variable configuredPort : N.

Definition slept (ms : nat) (s : started server) : started server :=
  {| outcome := outcome s; sleeps := ms :: sleeps s |}.

(** The loop [for (attempt = 1; attempt <= MAX_RETRIES; attempt++)],
    with the test of the server after it. *)
Equations? bind_port (attempt : nat) : started server
  by wf (S MAX_RETRIES - attempt) lt :=
  bind_port attempt with decide (attempt ≤ MAX_RETRIES) := {
    | left _ =>
        match serve attempt with
        | Listening s => {| outcome := Ok s; sleeps := [] |}
        | BindError message =>
            let isAddressInUse := Js.includes message "EADDRINUSE" in
            if isAddressInUse && bool_decide (attempt < MAX_RETRIES) then
              slept RETRY_DELAY_MS (bind_port (S attempt))
            else if isAddressInUse then
              let hint :=
                if isRemote
                then " (set PLANNOTATOR_PORT to use different port)"
                else "" in
              {| outcome :=
                   Throw ("Port " +:+ Js.of_N configuredPort
                          +:+ " in use after " +:+ Js.of_nat MAX_RETRIES
                          +:+ " retries" +:+ hint);
                 sleeps := [] |}
            else {| outcome := Throw message; sleeps := [] |}
        end
    | right _ => {| outcome := Throw "Failed to start server"; sleeps := [] |} }.
Proof. unfold MAX_RETRIES in *. lia. Qed.

Definition start : started server := bind_port 1.

(** The port is taken at an attempt: the call fails with a message
    that names the address as in use. *)
Definition in_use (attempt : nat) : Prop :=
  ∃ message, serve attempt = BindError message
    ∧ Js.includes message "EADDRINUSE" = true.

(** The error thrown when every attempt found the port taken. *)
Definition port_in_use : string :=
  "Port " +:+ Js.of_N configuredPort +:+ " in use after "
  +:+ Js.of_nat MAX_RETRIES +:+ " retries"
  +:+ (if isRemote then " (set PLANNOTATOR_PORT to use different port)"
       else "").

End Retry.
End Startup.

(** ** A project on disk, for the examples *)

Module Examples.

Definition project : gmap string string :=
  list_to_map
    [("/proj/README.md", "# Read me");
     ("/proj/docs/plan.md", "# Plan");
     ("/proj/a/x.md", "from a");
     ("/proj/b/x.md", "from b");
     ("/etc/passwd", "root:x:0:0:root:/root:/bin/sh");
     ("/home/u/notes.txt", "private notes")].

Definition runtime : DocServer.Runtime :=
  DocServer.on_disk "/proj" "/home/u" project.

(** A review of [/proj/docs/plan.md], started in [/proj]. *)
Definition session : DocServer.Session :=
  {| DocServer.markdown := "# Plan";
     DocServer.filepath := "/proj/docs/plan.md";
     DocServer.projectRoot := "/proj" |}.


(** A disk that refuses the rename of an atomic write, with [EXDEV]. *)
Definition rename_refused : Atomic.Faults string :=
  {| Atomic.mkdir_fault := None;
     Atomic.write_fault := None;
     Atomic.rename_fault := Some "EXDEV: cross-device link not permitted";
     Atomic.unlink_fault := None |}.

(** A storage directory in which the base slug of the day, its 998
    numbered variants and the variant numbered with the current
    millisecond are all taken. *)
Definition crowded_now : N := 1767225600000.

Definition crowded_names : list string :=
  "2026-01-01-plan.md"
  :: map (λ k, "2026-01-01-plan-" +:+ Js.of_nat k +:+ ".md") (seq 2 998)
  ++ ["2026-01-01-plan-" +:+ Js.of_N crowded_now +:+ ".md"].

Definition crowded : gmap string string :=
  list_to_map
    (map (λ name, ("/home/u/.plannotator/plans/" +:+ name, "# Plan"))
       crowded_names).

(** A batch of two plan files, and file systems that refuse its
    second write, leaving a part of it, or its second rename. *)
Definition batch : list (string * string) :=
  [("/plans/a.md", "A"); ("/plans/b.md", "B")].

Definition batch_uuid (i : nat) : string := "u" +:+ Js.of_nat i.

Definition batch_unrefused : AtomicBatch.Faults string :=
  {| AtomicBatch.mkdir_fault := λ _, None;
     AtomicBatch.write_fault := λ _, None;
     AtomicBatch.rename_fault := λ _, None;
     AtomicBatch.unlink_fault := λ _, None |}.

Definition second_write_refused : AtomicBatch.Faults string :=
  {| AtomicBatch.mkdir_fault := λ _, None;
     AtomicBatch.write_fault := λ i,
       if (i =? 1)%nat then Some ("ENOSPC", Some "") else None;
     AtomicBatch.rename_fault := λ _, None;
     AtomicBatch.unlink_fault := λ _, None |}.

Definition second_rename_refused : AtomicBatch.Faults string :=
  {| AtomicBatch.mkdir_fault := λ _, None;
     AtomicBatch.write_fault := λ _, None;
     AtomicBatch.rename_fault := λ i,
       if (i =? 1)%nat then Some "EXDEV" else None;
     AtomicBatch.unlink_fault := λ _, None |}.

End Examples.

(** * Properties *)

(** ** Strings *)

Module StringFacts.

Lemma sapp_cons a s t : String a s +:+ t = String a (s +:+ t).
Proof. reflexivity. Qed.

Lemma sapp_empty_l s : "" +:+ s = s.
Proof. reflexivity. Qed.

Lemma sapp_empty_r s : s +:+ "" = s.
Proof. induction s as [|a s IH]; [done|]. by rewrite sapp_cons, IH. Qed.

Lemma sapp_assoc s t u : (s +:+ t) +:+ u = s +:+ t +:+ u.
Proof. induction s as [|a s IH]; [done|]. by rewrite !sapp_cons, IH. Qed.

Lemma prefix_app p r : String.prefix p (p +:+ r) = true.
Proof.
  induction p as [|a p IH]; [by destruct r|].
  rewrite sapp_cons. simpl. destruct (ascii_dec a a); [apply IH|done].
Qed.

Lemma prefix_inv p s : String.prefix p s = true → ∃ r, s = p +:+ r.
Proof.
  revert s. induction p as [|a p IH]; intros s H.
  - by exists s.
  - destruct s as [|b s]; [done|]. simpl in H.
    destruct (ascii_dec a b) as [->|]; [|done].
    destruct (IH _ H) as [r ->]. by exists r.
Qed.

Lemma startsWith_iff s p : Js.startsWith s p = true ↔ ∃ r, s = p +:+ r.
Proof.
  split; [apply prefix_inv|]. intros [r ->]. apply prefix_app.
Qed.




Lemma includes_char_app s t c :
  Js.includes_char (s +:+ t) c = Js.includes_char s c || Js.includes_char t c.
Proof.
  induction s as [|a s IH]; [done|].
  rewrite sapp_cons. simpl. by destruct (Ascii.eqb a c).
Qed.

(** *** [split] and [join] *)

Lemma split_not_nil c s : Js.split c s ≠ [].
Proof.
  destruct s as [|a s]; simpl; [done|].
  destruct (Ascii.eqb a c); [done|]. by destruct (Js.split c s).
Qed.

Lemma split_cons_sep c s : Js.split c (String c s) = "" :: Js.split c s.
Proof. simpl. by rewrite Ascii.eqb_refl. Qed.

Lemma join_cons sep p q rest :
  Js.join sep (p :: q :: rest) = p +:+ sep +:+ Js.join sep (q :: rest).
Proof. reflexivity. Qed.

Lemma join_split s : Js.join "/" (Js.split "/" s) = s.
Proof.
  induction s as [|a s IH]; [done|]. simpl.
  destruct (Ascii.eqb a "/") eqn:E.
  - apply Ascii.eqb_eq in E as ->.
    pose proof (split_not_nil "/" s) as Hne.
    destruct (Js.split "/" s) as [|h t] eqn:Hs; [done|].
    rewrite join_cons, IH. reflexivity.
  - pose proof (split_not_nil "/" s) as Hne.
    destruct (Js.split "/" s) as [|h t] eqn:Hs; [done|].
    destruct t as [|h' t].
    + simpl in *. by rewrite IH.
    + rewrite join_cons in *. rewrite sapp_cons. by rewrite IH.
Qed.

Lemma split_app_sep c s t :
  Js.split c (s +:+ String c t) = Js.split c s ++ Js.split c t.
Proof.
  induction s as [|a s IH].
  - rewrite sapp_empty_l. apply split_cons_sep.
  - rewrite sapp_cons. simpl. destruct (Ascii.eqb a c); [by rewrite IH|].
    rewrite IH. pose proof (split_not_nil c s).
    by destruct (Js.split c s).
Qed.

Lemma split_no_sep c s :
  Js.includes_char s c = false → Js.split c s = [s].
Proof.
  induction s as [|a s IH]; [done|]. simpl.
  destruct (Ascii.eqb a c); [done|]. intros H. by rewrite IH.
Qed.

Lemma split_elements c s seg :
  seg ∈ Js.split c s → Js.includes_char seg c = false.
Proof.
  revert seg. induction s as [|a s IH]; intros seg; simpl.
  - by intros ->%list_elem_of_singleton.
  - destruct (Ascii.eqb a c) eqn:E.
    + intros [->|H]%elem_of_cons; [done|by apply IH].
    + pose proof (split_not_nil c s).
      destruct (Js.split c s) as [|h t]; [done|].
      intros [->|H']%elem_of_cons.
      * simpl. rewrite E. apply IH. by left.
      * apply IH. by right.
Qed.

Lemma join_app sep (l1 l2 : list string) :
  l1 ≠ [] → l2 ≠ [] →
  Js.join sep (l1 ++ l2) = Js.join sep l1 +:+ sep +:+ Js.join sep l2.
Proof.
  intros H1 H2. induction l1 as [|p l1 IH]; [done|].
  destruct l1 as [|q l1].
  - destruct l2; [done|]. reflexivity.
  - change ((p :: q :: l1) ++ l2) with (p :: q :: (l1 ++ l2)).
    rewrite !join_cons. rewrite sapp_assoc. f_equal.
    rewrite sapp_assoc. f_equal. by apply IH.
Qed.

Lemma split_join c (l : list string) :
  l ≠ [] → Forall (λ seg, Js.includes_char seg c = false) l →
  Js.split c (Js.join (String c "") l) = l.
Proof.
  intros Hne Hall. induction l as [|p l IH]; [done|].
  apply Forall_cons in Hall as [Hp Hl].
  destruct l as [|q l].
  - simpl. by apply split_no_sep.
  - rewrite join_cons. rewrite sapp_cons, sapp_empty_l.
    rewrite split_app_sep. rewrite split_no_sep by done.
    simpl. f_equal. by apply IH.
Qed.

End StringFacts.

(** ** Paths in normal form *)

Module PathFacts.
Import StringFacts.

Lemma plain_not_skipped seg :
  Path.plain seg = true →
  bool_decide (seg = "" ∨ seg = ".") = false ∧ bool_decide (seg = "..") = false.
Proof.
  unfold Path.plain. intros H.
  apply andb_prop in H as [H _]. apply andb_prop in H as [H H2].
  apply andb_prop in H as [H0 H1].
  apply negb_true_iff, bool_decide_eq_false in H0.
  apply negb_true_iff, bool_decide_eq_false in H1.
  apply negb_true_iff, bool_decide_eq_false in H2.
  split; apply bool_decide_eq_false; [by intros [?|?]|done].
Qed.

Lemma normalize_segs_plain above stack segs rest :
  forallb Path.plain segs = true →
  Path.normalize_segs above stack (segs ++ rest)
  = Path.normalize_segs above (rev segs ++ stack) rest.
Proof.
  revert stack. induction segs as [|seg segs IH]; intros stack H; [done|].
  simpl in H. apply andb_prop in H as [Hseg Hsegs].
  destruct (plain_not_skipped _ Hseg) as [E1 E2].
  simpl. rewrite E1, E2, IH by done.
  by rewrite <- app_assoc.
Qed.

Lemma relative_normal_not_empty m : Path.relative_normal m = true → m ≠ "".
Proof. by intros H ->. Qed.

Lemma relative_normal_not_absolute m :
  Path.relative_normal m = true → Path.isAbsolute m = false.
Proof.
  destruct m as [|a m]; [done|]. simpl.
  destruct (Ascii.eqb a Path.sep) eqn:E; [|done].
  unfold Path.relative_normal. simpl. by rewrite E.
Qed.

(** A normalized relative path resolved against a normalized base is
    the base, a separator and the path. *)
Lemma resolve_below cwd root m :
  Path.absolute_normal root = true → Path.relative_normal m = true →
  Path.resolve cwd [root; m] = root +:+ "/" +:+ m.
Proof.
  intros Hroot Hm.
  destruct root as [|a r]; [done|]. simpl in Hroot.
  apply andb_prop in Hroot as [Ha Hr]. apply Ascii.eqb_eq in Ha as ->.
  pose proof (relative_normal_not_empty _ Hm) as Hne.
  unfold Path.resolve. cbn [Path.resolve_args].
  rewrite (bool_decide_eq_false_2 (m = "")) by done.
  rewrite relative_normal_not_absolute by done.
  rewrite bool_decide_eq_false_2 by done.
  cbn [Path.isAbsolute]. rewrite Ascii.eqb_refl.
  unfold Path.normalizeString.
  change (String Path.sep r +:+ "/" +:+ m +:+ "/" +:+ "")
    with (String Path.sep (r +:+ String Path.sep (m +:+ String Path.sep ""))).
  rewrite split_cons_sep, !split_app_sep.
  change (Js.split Path.sep "") with [""].
  cbn [Path.normalize_segs]. rewrite bool_decide_eq_true_2 by by left.
  rewrite normalize_segs_plain by exact Hr.
  rewrite normalize_segs_plain by exact Hm.
  cbn [Path.normalize_segs]. rewrite bool_decide_eq_true_2 by by left.
  rewrite !rev_app_distr, !rev_involutive, app_nil_l.
  rewrite join_app by apply split_not_nil.
  by rewrite !join_split.
Qed.

(** Normalization of an absolute path leaves plain segments only. *)
Lemma normalize_segs_plain_out stack segs :
  forallb Path.plain stack = true →
  Forall (λ seg, Js.includes_char seg Path.sep = false) segs →
  forallb Path.plain (Path.normalize_segs false stack segs) = true.
Proof.
  intros Hstack Hsegs. revert stack Hstack.
  induction Hsegs as [|seg segs Hseg _ IH]; intros stack Hstack.
  - simpl. rewrite forallb_forall in *. intros x Hx.
    apply Hstack. by apply in_rev.
  - cbn [Path.normalize_segs].
    case_bool_decide as Hskip; [by apply IH|].
    case_bool_decide as Hup.
    + destruct stack as [|top below]; [by apply IH|].
      simpl in Hstack. apply andb_prop in Hstack as [Htop Hbelow].
      case_bool_decide as Htwo; [by apply IH|].
      by rewrite Htwo in Htop.
    + apply IH. simpl. rewrite Hstack, andb_true_r.
      unfold Path.plain. rewrite Hseg.
      rewrite !bool_decide_eq_false_2 by naive_solver. done.
Qed.

Lemma split_all_no_sep s :
  Forall (λ seg, Js.includes_char seg Path.sep = false) (Js.split Path.sep s).
Proof. apply Forall_forall. intros seg. apply split_elements. Qed.

Lemma plain_no_sep (segs : list string) :
  forallb Path.plain segs = true →
  Forall (λ seg, Js.includes_char seg Path.sep = false) segs.
Proof.
  rewrite forallb_forall, Forall_forall. intros H seg Hseg.
  apply list_elem_of_In, H in Hseg. unfold Path.plain in Hseg.
  apply andb_prop in Hseg as [_ Hseg]. by apply negb_true_iff in Hseg.
Qed.

(** A resolved path is in normal form: resolving it again changes
    nothing. *)
Lemma resolve_idempotent cwd args :
  Path.resolve cwd [Path.resolve cwd args] = Path.resolve cwd args.
Proof.
  unfold Path.resolve at 2 3.
  destruct (Path.resolve_args args) as [acc absolute].
  unfold Path.normalizeString.
  set (full := if absolute then acc else cwd +:+ "/" +:+ acc).
  pose proof (normalize_segs_plain_out [] (Js.split Path.sep full) eq_refl
                (split_all_no_sep full)) as Hplain.
  set (segs := Path.normalize_segs false [] (Js.split Path.sep full)) in *.
  unfold Path.resolve. cbn [Path.resolve_args].
  change ("/" +:+ Js.join "/" segs) with (String Path.sep (Js.join "/" segs)).
  rewrite bool_decide_eq_false_2 by done.
  cbn [Path.isAbsolute]. rewrite Ascii.eqb_refl.
  unfold Path.normalizeString.
  change (String Path.sep (Js.join "/" segs) +:+ "/" +:+ "")
    with (String Path.sep (Js.join "/" segs +:+ String Path.sep "")).
  rewrite split_cons_sep, split_app_sep.
  change (Js.split Path.sep "") with [""].
  cbn [Path.normalize_segs]. rewrite bool_decide_eq_true_2 by by left.
  clearbody segs. destruct (decide (segs = [])) as [->|Hne]; [done|].
  pose proof (plain_no_sep _ Hplain) as Hsep. unfold Path.sep in *.
  rewrite (split_join "/" segs) by done.
  rewrite normalize_segs_plain by done.
  cbn [Path.normalize_segs]. rewrite bool_decide_eq_true_2 by by left.
  by rewrite app_nil_r, rev_involutive.
Qed.

(** SEC-1 lets such a path through, for the base it was resolved
    against. *)
Lemma within_below root m : Security.within (root +:+ "/" +:+ m) root = true.
Proof.
  unfold Security.within. apply orb_true_intro. right.
  apply startsWith_iff. exists m. by rewrite sapp_assoc.
Qed.

End PathFacts.

(** ** The security validator *)

Module SecurityFacts.
Import StringFacts.

Lemma within_iff resolved resolvedBase :
  Security.within resolved resolvedBase = true
  ↔ resolved = resolvedBase ∨ ∃ rest, resolved = resolvedBase +:+ "/" +:+ rest.
Proof.
  unfold Security.within. rewrite orb_true_iff, bool_decide_eq_true.
  rewrite startsWith_iff. setoid_rewrite sapp_assoc. reflexivity.
Qed.

(** Containment by string prefix is containment by path segments: the
    segments of the base, followed by at least one more. *)
Lemma below_iff_segments (resolved resolvedBase : string) :
  (∃ rest, resolved = resolvedBase +:+ "/" +:+ rest)
  ↔ ∃ more, more ≠ []
      ∧ Js.split "/" resolved = Js.split "/" resolvedBase ++ more.
Proof.
  split.
  - intros [rest ->]. exists (Js.split "/" rest).
    split; [apply split_not_nil|]. apply (split_app_sep "/").
  - intros (more & Hne & Hsplit). exists (Js.join "/" more).
    rewrite <- (join_split resolved), Hsplit.
    rewrite join_app by (done || apply split_not_nil).
    by rewrite join_split.
Qed.

Section Validate.

Variable cwd : string.

Lemma allowed_iff_contained (resolved : string)
    (allowedBases : list string) :
  existsb (λ base, Security.within resolved (Path.resolve cwd [base]))
    allowedBases = true
  ↔ Security.contained cwd resolved allowedBases.
Proof.
  rewrite existsb_exists. unfold Security.contained.
  setoid_rewrite within_iff. by setoid_rewrite list_elem_of_In.
Qed.

(** C5.  [validatePath] returns the resolved absolute path exactly when
    that path equals some resolved base or starts with such a base
    followed by the separator, and throws otherwise; the sibling
    [/a/bc] of the base [/a/b] is refused. *)
Theorem validatePath_iff_contained (requestedPath : string)
    (allowedBases : list string) :
  let resolved := Path.resolve cwd [requestedPath] in
  (Security.validatePath cwd requestedPath allowedBases = Ok resolved
   ↔ Security.contained cwd resolved allowedBases)
  ∧ (Security.validatePath cwd requestedPath allowedBases
       = Throw ("Path not allowed: " +:+ requestedPath)
     ↔ ¬ Security.contained cwd resolved allowedBases)
  ∧ Security.validatePath cwd "/a/bc" ["/a/b"] = Throw "Path not allowed: /a/bc".
Proof.
  intros resolved. unfold Security.validatePath. fold resolved.
  pose proof (allowed_iff_contained resolved allowedBases) as H.
  destruct (existsb _ allowedBases); simpl.
  - split_and!; [|split; [done|]|done].
    + split; [intros _; by apply H|done].
    + intros Hnot. destruct Hnot. by apply H.
  - assert (¬ Security.contained cwd resolved allowedBases) as Hnot.
    { intros Hc. by apply H in Hc. }
    split_and!; [split; [done|]|done|done]. intros Hc. by destruct Hnot.
Qed.

End Validate.

(** The parts of the sanitizer's contract that hold for every name. *)

Lemma remove_chars_clean cls s c :
  cls c = true → Js.includes_char (Js.remove_chars cls s) c = false.
Proof.
  intros Hc. induction s as [|a s IH]; [done|]. simpl.
  destruct (cls a) eqn:Ha; [done|]. simpl.
  destruct (Ascii.eqb a c) eqn:E; [|done].
  apply Ascii.eqb_eq in E as ->. congruence.
Qed.

Lemma remove_chars_keeps cls s c :
  Js.includes_char s c = false → Js.includes_char (Js.remove_chars cls s) c = false.
Proof.
  induction s as [|a s IH]; [done|]. simpl.
  destruct (Ascii.eqb a c) eqn:E; [done|]. intros H.
  destruct (cls a); simpl; rewrite ?E; auto.
Qed.

Lemma remove_dotdot_unfold a b r :
  Security.remove_dotdot (String a (String b r))
  = if Ascii.eqb a "." && Ascii.eqb b "." then Security.remove_dotdot r
    else String a (Security.remove_dotdot (String b r)).
Proof. reflexivity. Qed.

Lemma remove_dotdot_keeps s c :
  Js.includes_char s c = false →
  Js.includes_char (Security.remove_dotdot s) c = false.
Proof.
  remember (String.length s) as n eqn:Hn.
  revert s Hn. induction (lt_wf n) as [n _ IH]; intros s -> H.
  destruct s as [|a [|b r]]; [done..|].
  rewrite remove_dotdot_unfold.
  cbn [Js.includes_char] in H.
  destruct (Ascii.eqb a c) eqn:Ea; [done|].
  destruct (Ascii.eqb b c) eqn:Eb; [done|].
  destruct (_ && _).
  - apply (IH (String.length r)); [simpl; lia|done..].
  - cbn [Js.includes_char]. rewrite Ea.
    apply (IH (String.length (String b r))); [simpl; lia|done|].
    cbn [Js.includes_char]. by rewrite Eb.
Qed.

Lemma trim_start_keeps s c :
  Js.includes_char s c = false →
  Js.includes_char (Security.trim_start s) c = false.
Proof.
  induction s as [|a s IH]; [done|]. simpl.
  destruct (Ascii.eqb a c) eqn:E; [done|]. intros H.
  destruct (Security.is_space_or_dot a); [auto|]. simpl. by rewrite E.
Qed.

Lemma trim_end_keeps s c :
  Js.includes_char s c = false →
  Js.includes_char (Security.trim_end s) c = false.
Proof.
  induction s as [|a s IH]; [done|]. cbn [Js.includes_char Security.trim_end].
  destruct (Ascii.eqb a c) eqn:E; [done|]. intros H. specialize (IH H).
  destruct (Security.trim_end s).
  - destruct (Security.is_space_or_dot a); [done|]. simpl. by rewrite E.
  - cbn [Js.includes_char]. by rewrite E.
Qed.

Lemma trim_keeps s c :
  Js.includes_char s c = false → Js.includes_char (Security.trim s) c = false.
Proof. intros H. by apply trim_end_keeps, trim_start_keeps. Qed.

(** The result never holds a slash or a backslash. *)
Lemma sanitizeFilename_no_separator filename c :
  Security.is_separator c = true →
  Js.includes_char (Security.sanitizeFilename filename) c = false.
Proof.
  intros Hc. unfold Security.sanitizeFilename.
  case_bool_decide.
  - unfold Security.is_separator in Hc.
    apply orb_true_iff in Hc as [->%Ascii.eqb_eq| ->%Ascii.eqb_eq]; reflexivity.
  - apply trim_keeps, remove_chars_keeps, remove_dotdot_keeps.
    by apply remove_chars_clean.
Qed.

(** Where the result holds no two consecutive dots, a second pass
    changes nothing. *)

Lemma remove_chars_id cls s :
  (∀ c, cls c = true → Js.includes_char s c = false) →
  Js.remove_chars cls s = s.
Proof.
  induction s as [|a s IH]; [done|]. intros H. simpl.
  destruct (cls a) eqn:Ha.
  - specialize (H a Ha). simpl in H. by rewrite Ascii.eqb_refl in H.
  - f_equal. apply IH. intros c Hc. specialize (H c Hc). simpl in H.
    by destruct (Ascii.eqb a c).
Qed.

Lemma prefix_two_dots a b r :
  String.prefix ".." (String a (String b r))
  = Ascii.eqb a "." && Ascii.eqb b ".".
Proof.
  cbn [String.prefix].
  destruct (ascii_dec "." a) as [<-|Ha].
  - destruct (ascii_dec "." b) as [<-|Hb]; [by destruct r|].
    destruct (Ascii.eqb b ".") eqn:E; [|done]. by apply Ascii.eqb_eq in E.
  - destruct (Ascii.eqb a ".") eqn:E; [|done]. by apply Ascii.eqb_eq in E.
Qed.

Lemma remove_dotdot_id s :
  Js.includes s ".." = false → Security.remove_dotdot s = s.
Proof.
  induction s as [|a s IH]; [done|]. destruct s as [|b r]; [done|].
  rewrite remove_dotdot_unfold.
  change (Js.includes (String a (String b r)) "..")
    with (if String.prefix ".." (String a (String b r)) then true
          else Js.includes (String b r) "..").
  rewrite prefix_two_dots.
  destruct (_ && _); [done|]. intros H. by rewrite IH.
Qed.

Lemma trim_start_id s :
  Security.trim_start (Security.trim_start s) = Security.trim_start s.
Proof.
  induction s as [|a s IH]; [done|]. simpl.
  destruct (Security.is_space_or_dot a) eqn:E; [done|]. simpl. by rewrite E.
Qed.

Lemma trim_end_id s :
  Security.trim_end (Security.trim_end s) = Security.trim_end s.
Proof.
  induction s as [|a s IH]; [done|]. cbn [Security.trim_end].
  destruct (Security.trim_end s) as [|b kept] eqn:E.
  - destruct (Security.is_space_or_dot a) eqn:Ea; [done|].
    simpl. by rewrite Ea.
  - cbn [Security.trim_end]. cbn [Security.trim_end] in IH.
    by rewrite IH.
Qed.

Lemma trim_start_end s :
  Security.trim_start s = s →
  Security.trim_start (Security.trim_end s) = Security.trim_end s.
Proof.
  destruct s as [|a s]; [done|]. cbn [Security.trim_start Security.trim_end].
  destruct (Security.is_space_or_dot a) eqn:Ea.
  - intros H. apply (f_equal String.length) in H. exfalso.
    assert (∀ t, String.length (Security.trim_start t) ≤ String.length t) as Hle.
    { clear. induction t as [|b t IH]; simpl; [done|].
      destruct (Security.is_space_or_dot b); simpl; lia. }
    specialize (Hle s). simpl in H. lia.
  - intros _. destruct (Security.trim_end s); simpl; by rewrite Ea.
Qed.

Lemma trim_id s : Security.trim (Security.trim s) = Security.trim s.
Proof.
  unfold Security.trim.
  rewrite trim_start_end by apply trim_start_id. apply trim_end_id.
Qed.

(** X5.  On a name whose sanitized form holds no two dots in a row,
    sanitizing again changes nothing. *)
Lemma sanitizeFilename_idempotent_without_dotdot filename :
  Js.includes (Security.sanitizeFilename filename) ".." = false →
  Security.sanitizeFilename (Security.sanitizeFilename filename)
  = Security.sanitizeFilename filename.
Proof.
  unfold Security.sanitizeFilename at 1 3 4.
  set (cleaned := Js.remove_chars Security.is_dangerous
                    (Security.remove_dotdot
                       (Js.remove_chars Security.is_separator filename))).
  case_bool_decide as Hempty; [done|]. intros Hdots.
  unfold Security.sanitizeFilename.
  rewrite (remove_chars_id Security.is_separator).
  2:{ intros c Hc. apply trim_keeps, remove_chars_keeps, remove_dotdot_keeps.
      by apply remove_chars_clean. }
  rewrite remove_dotdot_id by done.
  rewrite (remove_chars_id Security.is_dangerous).
  2:{ intros c Hc. by apply trim_keeps, remove_chars_clean. }
  rewrite trim_id. by rewrite bool_decide_eq_false_2.
Qed.

(** C6.  The removal of two-dot sequences runs before the removal of
    the dangerous characters: dots that a dangerous character kept apart
    meet afterwards.  The name [a.:.b] is sanitized to [a..b], which
    holds two consecutive dots and which a second pass turns into [ab]. *)
Theorem sanitizeFilename_leaves_dotdot :
  Security.sanitizeFilename "a.:.b" = "a..b"
  ∧ Js.includes (Security.sanitizeFilename "a.:.b") ".." = true
  ∧ Security.sanitizeFilename (Security.sanitizeFilename "a.:.b") = "ab"
  ∧ Security.sanitizeFilename (Security.sanitizeFilename "a.:.b")
    ≠ Security.sanitizeFilename "a.:.b".
Proof. by vm_compute. Qed.

End SecurityFacts.

(** ** The linked-document and image routes *)

Module DocServerFacts.
Import StringFacts DocServer.


Section Routes.

Variable rt : Runtime.
Variable session : Session.

Local Abbreviation root := (projectRoot session).

(** Whatever the strategies left in [resolvedPath], found or not, a
    path that fails the test of SEC-1 as it is spelled is answered with
    the traversal error: the test runs before the existence check. *)
Lemma traversal_checked_before_existence requestedPath resolvedPath found :
  locate rt session requestedPath = Ok (Chosen resolvedPath found) →
  isAllowed rt session resolvedPath = false →
  linked_document rt session requestedPath
  = ErrorJson 403 "Path traversal attempt blocked".
Proof.
  intros Hlocate Hout. unfold linked_document. by rewrite Hlocate, Hout.
Qed.

(** Within the bases, a missing file is the 404. *)
Lemma not_found_within_bases requestedPath resolvedPath :
  locate rt session requestedPath = Ok (Chosen resolvedPath false) →
  isAllowed rt session resolvedPath = true →
  linked_document rt session requestedPath
  = ErrorJson 404 ("File not found: " +:+ requestedPath).
Proof.
  intros Hlocate Hin. unfold linked_document. by rewrite Hlocate, Hin.
Qed.

(** What is served passed SEC-1 as it was spelled. *)
Lemma served_passed_check requestedPath content path isMain readOnly :
  linked_document rt session requestedPath
  = DocJson content path isMain readOnly →
  isAllowed rt session path = true.
Proof.
  unfold linked_document.
  destruct (locate rt session requestedPath) as [[p found|]|]; [|done..].
  destruct (isAllowed rt session p) eqn:Hp; [|done]. simpl.
  destruct found; [|done]. simpl.
  destruct (file_text rt p); [|done]. by intros [= _ <- _ _].
Qed.

(** The strategies for a request that is not absolute leave a path in
    normal form: each is an outcome of [resolve]. *)
Lemma locate_relative_normal requestedPath resolvedPath found :
  Js.startsWith requestedPath "/" = false →
  locate rt session requestedPath = Ok (Chosen resolvedPath found) →
  resolve rt [resolvedPath] = resolvedPath.
Proof.
  intros Hrel. unfold locate, glob_matches. rewrite Hrel.
  assert (∀ args p b, Ok (Chosen (resolve rt args) b) = Ok (Chosen p found) →
            resolve rt [p] = p) as Hdone.
  { intros args p b [= <- _]. apply PathFacts.resolve_idempotent. }
  destruct (file_exists rt (resolve rt [baseDir rt session; requestedPath]));
    cbn [negb andb]; [by apply Hdone|].
  destruct (file_exists rt (resolve rt [root; requestedPath]));
    cbn [negb andb]; [by apply Hdone|].
  destruct (Js.includes_char requestedPath "/"); cbn [negb]; [by apply Hdone|].
  destruct (glob_scan rt _ root) as [scanned|]; cbn [mbind result_bind]; [|done].
  destruct (filter _ scanned) as [|m [|m' more]]; cbn [map];
    [by apply Hdone..|done].
Qed.

(** For a request that is not absolute, the document served lies
    within the allowed bases once normalized: it is in normal form and
    passed SEC-1. *)
Lemma relative_request_within_bases requestedPath content path isMain readOnly :
  Js.startsWith requestedPath "/" = false →
  linked_document rt session requestedPath
  = DocJson content path isMain readOnly →
  isAllowed rt session path = true ∧ resolve rt [path] = path.
Proof.
  intros Hrel Hserved. split; [by eapply served_passed_check|].
  revert Hserved. unfold linked_document.
  destruct (locate rt session requestedPath) as [[p found|]|] eqn:Hlocate;
    [|done..].
  destruct (isAllowed rt session p); [|done]. cbn [negb].
  destruct found; [|done]. cbn [negb].
  destruct (file_text rt p); [|done]. intros [= _ <- _ _].
  by eapply locate_relative_normal.
Qed.

(** When no strategy finds a file, the path put to SEC-1 is the request
    itself if it is absolute, and the request resolved against the
    document's directory otherwise. *)
Lemma locate_nothing_found requestedPath :
  (∀ path, file_exists rt path = false) →
  Js.includes_char requestedPath "/" = true
  ∨ glob_matches rt session requestedPath = Ok [] →
  locate rt session requestedPath
  = Ok (Chosen (if Js.startsWith requestedPath "/" then requestedPath
                else resolve rt [baseDir rt session; requestedPath]) false).
Proof.
  intros Hnone Hglob. unfold locate. rewrite !Hnone.
  destruct (Js.startsWith requestedPath "/"); [done|]. cbn [negb andb].
  destruct Hglob as [-> | ->]; [done|].
  by destruct (Js.includes_char requestedPath "/").
Qed.

(** The image route asks [validatePath] alone: a file below an allowed
    base is served whatever its extension. *)
Lemma api_image_ignores_extension imagePath validated :
  imagePath ≠ "" →
  Security.validatePath (cwd rt) imagePath
    ["/tmp/plannotator"; homedir rt; baseDir rt session] = Ok validated →
  file_exists rt validated = true →
  api_image rt session (Some imagePath) = FileResponse validated.
Proof.
  intros Hne Hvalid Hexists. unfold api_image.
  rewrite bool_decide_eq_false_2 by done. by rewrite Hvalid, Hexists.
Qed.

(** *** The search for a bare filename *)





End Routes.

(** The scenario of the specification: with [a/x.md] and [b/x.md] in
    the project, the bare name is ambiguous and both are listed; the
    path [a/x.md] is found from the project root. *)
Example ambiguous_x_md :
  linked_document Examples.runtime Examples.session "x.md"
  = ErrorJson 400
      ("Ambiguous filename 'x.md' - found 2 matches:" +:+ Js.nl
       +:+ "a/x.md" +:+ Js.nl +:+ "b/x.md")
  ∧ linked_document Examples.runtime Examples.session "a/x.md"
    = DocJson "from a" "/proj/a/x.md" false true.
Proof. by vm_compute. Qed.



Lemma traversal_checked_before_existence_witness :
  linked_document Examples.runtime Examples.session "/etc/nothing"
  = ErrorJson 403 "Path traversal attempt blocked".
Proof.
  exact (traversal_checked_before_existence Examples.runtime Examples.session
           "/etc/nothing" "/etc/nothing" false eq_refl eq_refl).
Defined.

(** C1.  An absolute request is checked as it is spelled, without
    normalization.  [/proj/docs/../../etc/passwd] starts with the
    document's directory, passes SEC-1, and the kernel opens
    [/etc/passwd], which lies in neither allowed base: its contents are
    returned. *)
Theorem absolute_request_escapes_bases :
  let requested := "/proj/docs/../../etc/passwd" in
  linked_document Examples.runtime Examples.session requested
  = DocJson "root:x:0:0:root:/root:/bin/sh" requested false true
  ∧ Path.resolve "/proj" [requested] = "/etc/passwd"
  ∧ isAllowed Examples.runtime Examples.session "/etc/passwd" = false
  ∧ Security.validatePath "/proj" requested ["/proj/docs"; "/proj"]
    = Throw ("Path not allowed: " +:+ requested).
Proof. by vm_compute. Qed.

(** C9.  The containment check does come before the existence check,
    yet a missing file outside the bases can be reported missing: the
    absolute request [/proj/docs/../../etc/nothing] is checked as it is
    spelled, passes SEC-1, and is answered with the 404, though it
    resolves to [/etc/nothing], in neither allowed base.  The same
    place asked for in normal form, or relative to the document, is
    answered with the traversal error. *)
Theorem escaping_request_reported_missing :
  let requested := "/proj/docs/../../etc/nothing" in
  linked_document Examples.runtime Examples.session requested
  = ErrorJson 404 ("File not found: " +:+ requested)
  ∧ Path.resolve "/proj" [requested] = "/etc/nothing"
  ∧ file_exists Examples.runtime "/etc/nothing" = false
  ∧ isAllowed Examples.runtime Examples.session "/etc/nothing" = false
  ∧ Security.validatePath "/proj" requested ["/proj/docs"; "/proj"]
    = Throw ("Path not allowed: " +:+ requested)
  ∧ linked_document Examples.runtime Examples.session "/etc/nothing"
    = ErrorJson 403 "Path traversal attempt blocked"
  ∧ linked_document Examples.runtime Examples.session "../../etc/nothing"
    = ErrorJson 403 "Path traversal attempt blocked".
Proof. by vm_compute. Qed.

(** C2.  [/home/u/notes.txt] lies below the home directory and is no
    image: [validateImagePath] refuses it, and the image route, which
    calls [validatePath], serves it. *)
Theorem image_route_serves_other_files :
  let requested := "/home/u/notes.txt" in
  api_image Examples.runtime Examples.session (Some requested)
  = FileResponse requested
  ∧ Security.isAllowedImageExtension requested = false
  ∧ Security.validateImagePath "/proj" requested
      ["/tmp/plannotator"; "/home/u"; "/proj/docs"]
    = Throw "Invalid image extension: .txt".
Proof. by vm_compute. Qed.

End DocServerFacts.

(** ** The decision broker *)

Module BrokerFacts.
Import DocServer.

Section Broker.

Variable annotation : Type.
Variable session : Session.

Implicit Types (d : Decision annotation) (r : request annotation)
  (broker : promise (Decision annotation)).

Lemma handle_fulfils r broker :
  handle session r broker = fulfil (payload session r) broker.
Proof. by destruct r. Qed.

(** A settled promise stays as it is, whatever the request. *)
Lemma handle_settled r d : (handle session r (Fulfilled d)).1 = Fulfilled d.
Proof. rewrite handle_fulfils. by destruct (payload session r). Qed.

(** The answer to a request does not depend on the promise. *)
Lemma answer_independent r broker broker' :
  (handle session r broker).2 = (handle session r broker').2.
Proof. rewrite !handle_fulfils. by destruct (payload session r). Qed.

Lemma answer_ok r d broker :
  payload session r = Ok d → (handle session r broker).2 = OkJson.
Proof. intros H. by rewrite handle_fulfils, H. Qed.

Lemma serve_cons r rs broker :
  serve session (r :: rs) broker
  = let broker' := (handle session r broker).1 in
    ((serve session rs broker').1,
     (handle session r broker).2 :: (serve session rs broker').2).
Proof.
  simpl. destruct (handle session r broker) as [b a]. simpl.
  by destruct (serve session rs b).
Qed.

Lemma serve_settled rs d :
  (serve session rs (Fulfilled d)).1 = Fulfilled d
  ∧ Forall2 (λ r answer,
               answer = (handle session r Pending).2
               ∧ ∀ d', payload session r = Ok d' → answer = OkJson)
      rs (serve session rs (Fulfilled d)).2.
Proof.
  induction rs as [|r rs [IH1 IH2]]; [by split; [|constructor]|].
  rewrite serve_cons. cbn zeta. rewrite handle_settled. simpl.
  split; [done|]. constructor; [|done]. split.
  - apply answer_independent.
  - intros d'. apply answer_ok.
Qed.

(** C3.  Once a request has fulfilled the promise with a decision, the
    consumer awaiting it receives that decision however many approve or
    feedback requests follow and whatever they carry; each of them is
    answered as on a fresh promise, with [{ ok: true }] when it gets as
    far as [resolveDecision]. *)
Theorem first_fulfilment_wins r (later : list (request annotation)) d :
  payload session r = Ok d →
  let served := serve session (r :: later) Pending in
  awaited served.1 = Some d
  ∧ ∃ answers, served.2 = OkJson :: answers
      ∧ Forall2 (λ r' answer,
                   answer = (handle session r' Pending).2
                   ∧ ∀ d', payload session r' = Ok d' → answer = OkJson)
          later answers.
Proof.
  intros Hr served. subst served. rewrite serve_cons. cbn zeta.
  rewrite handle_fulfils, Hr. cbn [fulfil resolveDecision fst snd].
  destruct (serve_settled later d) as [-> Hanswers].
  split; [done|]. eexists. split; [done|]. exact Hanswers.
Qed.

(** C10, as the code has it.  Unless the body is the JSON text [null],
    the approve route resolves the promise with the approval, taking
    [agentSwitch] from an object body and none from a body that is
    absent, empty or malformed, and answers [{ ok: true }]; the
    feedback route answers a body that does not parse with status 500
    and leaves the promise alone. *)
Theorem approve_accepts_unparsable_body (b : body ApproveBody) broker :
  b ≠ JsonNull →
  api_approve annotation b broker
  = (resolveDecision
       {| approved := true;
          feedback := Some "LGTM - no changes needed";
          annotations := None;
          agentSwitch :=
            match b with
            | JsonObject fields => approve_agentSwitch fields
            | _ => None
            end |} broker,
     OkJson)
  ∧ ∀ message,
      api_feedback session (Unparsable message) broker
      = (broker, ErrorJson 500 message).
Proof. intros Hb. by destruct b. Qed.

End Broker.

(** C10, as stated, fails: the body [null] parses, the read of
    [body.agentSwitch] throws, and the route answers with status 500
    without resolving the promise. *)
Lemma approve_fails_on_null_body :
  ¬ ∀ (b : body ApproveBody) (broker : promise (Decision ())),
      (api_approve () b broker).2 = OkJson.
Proof. intros H. specialize (H JsonNull Pending). discriminate H. Qed.

Example approve_null_body :
  api_approve () JsonNull Pending
  = (Pending,
     ErrorJson 500 "null is not an object (evaluating 'body.agentSwitch')").
Proof. reflexivity. Qed.

Lemma approve_accepts_unparsable_body_witness :
  api_approve () (Unparsable "Unexpected end of JSON input") Pending
  = (Fulfilled {| approved := true;
                  feedback := Some "LGTM - no changes needed";
                  annotations := None;
                  agentSwitch := None |},
     OkJson)
  ∧ ∀ message,
      api_feedback Examples.session (Unparsable message)
        (Pending : promise (Decision ()))
      = (Pending, ErrorJson 500 message).
Proof.
  apply (approve_accepts_unparsable_body () Examples.session
           (Unparsable "Unexpected end of JSON input") Pending).
  discriminate.
Defined.

Lemma first_fulfilment_wins_witness :
  let approval :=
    {| approved := true;
       feedback := Some "LGTM - no changes needed";
       annotations := @None (list ());
       agentSwitch := Some "build" |} in
  let later :=
    [Feedback (JsonObject {| body_feedback := Some "rework";
                             body_annotations := Some [()];
                             body_agentSwitch := None;
                             body_linkedDocs := None |});
     Approve (Unparsable "Unexpected end of JSON input");
     Feedback JsonNull] in
  let served :=
    serve Examples.session
      (Approve (JsonObject {| approve_agentSwitch := Some "build" |}) :: later)
      Pending in
  awaited served.1 = Some approval
  ∧ ∃ answers, served.2 = OkJson :: answers
      ∧ Forall2 (λ r' answer,
                   answer = (handle Examples.session r' Pending).2
                   ∧ ∀ d', payload Examples.session r' = Ok d' → answer = OkJson)
          later answers.
Proof.
  intros approval later.
  exact (first_fulfilment_wins () Examples.session
           (Approve (JsonObject {| approve_agentSwitch := Some "build" |}))
           later approval eq_refl).
Defined.

End BrokerFacts.

(** ** The atomic writer *)

Module AtomicFacts.
Import Atomic.

Section Writer.

Variable error : Type.
Variable cwd : string.
Variable enoent : string → error.
Variable faults : Faults error.
Variable uuid : string.

Local Abbreviation atomicWrite := (atomicWrite error cwd enoent faults uuid).
Local Abbreviation temp := (tempPath uuid).
Local Abbreviation readFile := (readFile cwd).
Local Abbreviation key := (key cwd).

(** C4.  A write that returns has put exactly the content at the target.
    A write that throws re-raises the error of the first step that
    failed, whether or not the clean-up failed as well; it leaves the
    target as it was, absent or with its earlier content; and if the
    clean-up was not itself refused, no temporary file remains. *)
Theorem atomicWrite_all_or_nothing fs targetPath content :
  key (temp targetPath) ≠ key targetPath →
  match atomicWrite targetPath content fs with
  | (fs', Returned path) =>
      first_failure error faults = None
      ∧ path = targetPath
      ∧ readFile fs' targetPath = Some content
  | (fs', Thrown e) =>
      first_failure error faults = Some e
      ∧ readFile fs' targetPath = readFile fs targetPath
      ∧ (mkdir_fault faults = None → unlink_fault faults = None →
         readFile fs' (temp targetPath) = None)
  end.
Proof.
  intros Hfresh.
  unfold Atomic.atomicWrite, first_failure, Atomic.readFile, Atomic.tempPath in *.
  set (kt := key (Path.join [Path.dirname targetPath; ".tmp-" +:+ uuid])) in *.
  set (kg := key targetPath) in *.
  unfold bind, try_catch, mkdirSync, Bun_write, renameSync, existsSync,
    unlinkSync, ret, throw.
  fold kt kg.
  destruct faults as [mk wr rn ul]; cbn [mkdir_fault write_fault rename_fault unlink_fault].
  destruct mk as [e|]; [by simplify_map_eq|].
  destruct wr as [[e [partial|]]|].
  - (* the write failed and left a part *)
    rewrite lookup_insert_eq. rewrite bool_decide_eq_true_2 by done.
    destruct ul as [e'|]; by simplify_map_eq.
  - (* the write failed and left nothing *)
    case_bool_decide as Hpresent.
    + destruct Hpresent as [old Hold]. rewrite Hold.
      destruct ul as [e'|]; by simplify_map_eq.
    + apply eq_None_not_Some in Hpresent. split_and!; done.
  - (* the write succeeded *)
    rewrite lookup_insert_eq.
    destruct rn as [e|].
    + rewrite lookup_insert_eq. rewrite bool_decide_eq_true_2 by done.
      destruct ul as [e'|]; by simplify_map_eq.
    + by simplify_map_eq.
Qed.

End Writer.

Lemma atomicWrite_all_or_nothing_witness :
  let fs : gmap string string := {[ "/plans/plan.md" := "old" ]} in
  match Atomic.atomicWrite string "/" (λ p, "ENOENT: " +:+ p)
          Examples.rename_refused "0b6f" "/plans/plan.md" "new" fs with
  | (fs', Returned path) =>
      first_failure string Examples.rename_refused = None
      ∧ path = "/plans/plan.md"
      ∧ Atomic.readFile "/" fs' "/plans/plan.md" = Some "new"
  | (fs', Thrown e) =>
      first_failure string Examples.rename_refused = Some e
      ∧ Atomic.readFile "/" fs' "/plans/plan.md"
        = Atomic.readFile "/" fs "/plans/plan.md"
      ∧ (mkdir_fault Examples.rename_refused = None →
         unlink_fault Examples.rename_refused = None →
         Atomic.readFile "/" fs' (tempPath "0b6f" "/plans/plan.md") = None)
  end.
Proof.
  intros fs.
  apply (atomicWrite_all_or_nothing string "/" (λ p, "ENOENT: " +:+ p)
           Examples.rename_refused "0b6f" fs "/plans/plan.md" "new").
  vm_compute. discriminate.
Defined.

Example atomicWrite_round_trip :
  let fs : gmap string string := {[ "/plans/plan.md" := "old" ]} in
  let no_fault := {| mkdir_fault := None; write_fault := None;
                     rename_fault := None; unlink_fault := @None string |} in
  let written :=
    Atomic.atomicWrite string "/" (λ p, "ENOENT: " +:+ p) no_fault "0b6f"
      "/plans/plan.md" "new" fs in
  written.2 = Returned "/plans/plan.md"
  ∧ Atomic.readFile "/" written.1 "/plans/plan.md" = Some "new"
  ∧ Atomic.readFile "/" written.1 (tempPath "0b6f" "/plans/plan.md") = None.
Proof. by vm_compute. Qed.

End AtomicFacts.

(** ** The slug allocator *)

Module StorageFacts.
Import Storage.

Section Slugs.

Variable cwd homedir : string.
Variable fs : gmap string string.
Variable now : N.
Variable today : string.
Variable extractFirstHeading : string → option string.
Variable sanitizeTag : string → string.
Variable mkdir_fault : option string.

Local Abbreviation existsSync := (existsSync cwd fs).
Local Abbreviation next_free := (next_free cwd fs now).
Local Abbreviation taken := (taken cwd fs).
Local Abbreviation generateSlug := (generateSlug today extractFirstHeading sanitizeTag).
Local Abbreviation getPlanDir := (getPlanDir homedir mkdir_fault).
Local Abbreviation generateUniqueSlug :=
  (generateUniqueSlug cwd homedir fs now today extractFirstHeading
     sanitizeTag mkdir_fault).

(** The loop returns a free numbered variant, or finds every variant
    from [counter] up to 999 taken and returns the time-stamped one. *)
Lemma next_free_spec planDir baseSlug counter :
  let slug := next_free planDir baseSlug counter in
  taken planDir slug = false
  ∨ (slug = baseSlug +:+ "-" +:+ Js.of_N now
     ∧ ∀ k, counter ≤ k < 1000 →
         taken planDir (baseSlug +:+ "-" +:+ Js.of_nat k) = true).
Proof.
  cbn zeta. funelim (Storage.next_free cwd fs now planDir baseSlug counter).
  - cbn zeta. unfold Storage.taken in *.
    destruct (existsSync
                (Path.join
                   [planDir; (baseSlug +:+ "-" +:+ Js.of_nat counter) +:+ ".md"]))
      eqn:Htaken; cbn [negb].
    + destruct H as [Hfree|[Hlast Hall]]; [by left|right].
      split; [done|]. intros k Hk.
      destruct (decide (k = counter)) as [->|]; [done|]. apply Hall. lia.
    + by left.
  - right. split; [done|]. intros k Hk. lia.
Qed.

(** When every variant from [counter] up to 999 is taken, the loop
    runs out and returns the time-stamped variant. *)
Lemma next_free_exhausted planDir baseSlug counter :
  (∀ k, counter ≤ k < 1000 →
     taken planDir (baseSlug +:+ "-" +:+ Js.of_nat k) = true) →
  next_free planDir baseSlug counter = baseSlug +:+ "-" +:+ Js.of_N now.
Proof.
  funelim (Storage.next_free cwd fs now planDir baseSlug counter);
    intros Hall; [|done].
  cbn zeta. unfold Storage.taken in *.
  rewrite (Hall counter) by lia. cbn [negb]. apply H.
  intros k Hk. apply Hall. lia.
Qed.

(** C8, as the code has it.  Once the storage directory is there, the
    call returns.  Whenever the base slug or one of its variants
    numbered 2 to 999 is free, the slug returned has no file in the
    directory.  When the base slug and all those variants are taken,
    the slug returned is the variant numbered with the current
    millisecond, returned without a look at the directory.  So the
    slug returned is free, unless it is that last one. *)
Theorem generateUniqueSlug_free_or_timestamp plan customPath planDir :
  getPlanDir customPath = Ok planDir →
  ∃ slug,
    generateUniqueSlug plan customPath = Ok slug
    ∧ (taken planDir (generateSlug plan) = false
       ∨ (∃ k, 2 ≤ k < 1000
            ∧ taken planDir (generateSlug plan +:+ "-" +:+ Js.of_nat k) = false) →
       taken planDir slug = false)
    ∧ (taken planDir (generateSlug plan) = true →
       (∀ k, 2 ≤ k < 1000 →
          taken planDir (generateSlug plan +:+ "-" +:+ Js.of_nat k) = true) →
       slug = generateSlug plan +:+ "-" +:+ Js.of_N now)
    ∧ (taken planDir slug = false
       ∨ (slug = generateSlug plan +:+ "-" +:+ Js.of_N now
          ∧ taken planDir (generateSlug plan) = true
          ∧ ∀ k, 2 ≤ k < 1000 →
              taken planDir (generateSlug plan +:+ "-" +:+ Js.of_nat k) = true)).
Proof.
  intros Hdir. unfold Storage.generateUniqueSlug. rewrite Hdir.
  cbn [mbind result_bind].
  change (Storage.existsSync cwd fs
            (Path.join [planDir; generateSlug plan +:+ ".md"]))
    with (taken planDir (generateSlug plan)).
  destruct (taken planDir (generateSlug plan)) eqn:Hbase; cbn [negb].
  - eexists. split; [done|].
    pose proof (next_free_spec planDir (generateSlug plan) 2) as Hspec.
    cbn zeta in Hspec. split_and!.
    + intros [|(k & Hk & Hfree)]; [done|].
      destruct Hspec as [|[_ Hall]]; [done|].
      rewrite (Hall k Hk) in Hfree. done.
    + intros _ Hall. by apply next_free_exhausted.
    + destruct Hspec as [Hfree|[-> Hall]]; [by left|by right].
  - eexists. split; [done|]. split_and!; [done|done|by left].
Qed.

End Slugs.

(** C8, as stated, fails: in a directory where the base slug, its
    variants 2 to 999 and the variant of the current millisecond are
    taken, the slug returned is that last one, whose file exists. *)
Lemma timestamp_slug_may_be_taken :
  ¬ ∀ cwd homedir fs now today extractFirstHeading sanitizeTag mkdir_fault
      plan customPath planDir slug,
      getPlanDir homedir mkdir_fault customPath = Ok planDir →
      generateUniqueSlug cwd homedir fs now today extractFirstHeading
        sanitizeTag mkdir_fault plan customPath = Ok slug →
      taken cwd fs planDir slug = false.
Proof.
  intros H.
  specialize (H "/" "/home/u" Examples.crowded Examples.crowded_now
                "2026-01-01" (λ _, None) (λ tag, tag) None "no heading" None
                "/home/u/.plannotator/plans"
                ("2026-01-01-plan-" +:+ Js.of_N Examples.crowded_now)
                eq_refl).
  assert (generateUniqueSlug "/" "/home/u" Examples.crowded
            Examples.crowded_now "2026-01-01" (λ _, None) (λ tag, tag) None
            "no heading" None
          = Ok ("2026-01-01-plan-" +:+ Js.of_N Examples.crowded_now)) as E
    by (vm_compute; reflexivity).
  specialize (H E). vm_compute in H. discriminate H.
Qed.

Lemma generateUniqueSlug_free_or_timestamp_witness :
  ∃ slug,
    generateUniqueSlug "/" "/home/u" Examples.crowded Examples.crowded_now
      "2026-01-01" (λ _, None) (λ tag, tag) None "no heading" None = Ok slug
    ∧ (taken "/" Examples.crowded "/home/u/.plannotator/plans"
         (generateSlug "2026-01-01" (λ _, None) (λ tag, tag) "no heading")
       = false
       ∨ (∃ k, 2 ≤ k < 1000
            ∧ taken "/" Examples.crowded "/home/u/.plannotator/plans"
                (generateSlug "2026-01-01" (λ _, None) (λ tag, tag) "no heading"
                 +:+ "-" +:+ Js.of_nat k) = false) →
       taken "/" Examples.crowded "/home/u/.plannotator/plans" slug = false)
    ∧ (taken "/" Examples.crowded "/home/u/.plannotator/plans"
         (generateSlug "2026-01-01" (λ _, None) (λ tag, tag) "no heading")
       = true →
       (∀ k, 2 ≤ k < 1000 →
          taken "/" Examples.crowded "/home/u/.plannotator/plans"
            (generateSlug "2026-01-01" (λ _, None) (λ tag, tag) "no heading"
             +:+ "-" +:+ Js.of_nat k) = true) →
       slug = generateSlug "2026-01-01" (λ _, None) (λ tag, tag) "no heading"
              +:+ "-" +:+ Js.of_N Examples.crowded_now)
    ∧ (taken "/" Examples.crowded "/home/u/.plannotator/plans" slug = false
       ∨ (slug = generateSlug "2026-01-01" (λ _, None) (λ tag, tag) "no heading"
                 +:+ "-" +:+ Js.of_N Examples.crowded_now
          ∧ taken "/" Examples.crowded "/home/u/.plannotator/plans"
              (generateSlug "2026-01-01" (λ _, None) (λ tag, tag) "no heading")
            = true
          ∧ ∀ k, 2 ≤ k < 1000 →
              taken "/" Examples.crowded "/home/u/.plannotator/plans"
                (generateSlug "2026-01-01" (λ _, None) (λ tag, tag) "no heading"
                 +:+ "-" +:+ Js.of_nat k) = true)).
Proof.
  exact (generateUniqueSlug_free_or_timestamp "/" "/home/u" Examples.crowded
           Examples.crowded_now "2026-01-01" (λ _, None) (λ tag, tag) None
           "no heading" None "/home/u/.plannotator/plans" eq_refl).
Defined.

End StorageFacts.

(** * Further properties of the code *)

(** ** More on paths in normal form *)

Module PathMore.
Import StringFacts PathFacts.

(** An absolute path in normal form resolves to itself. *)
Lemma resolve_absolute_normal cwd p :
  Path.absolute_normal p = true → Path.resolve cwd [p] = p.
Proof.
  destruct p as [|a r]; [done|]. cbn [Path.absolute_normal].
  intros [Ha Hr]%andb_prop. apply Ascii.eqb_eq in Ha as ->.
  unfold Path.resolve. cbn [Path.resolve_args].
  rewrite bool_decide_eq_false_2 by done.
  cbn [Path.isAbsolute]. rewrite Ascii.eqb_refl.
  unfold Path.normalizeString.
  change (String Path.sep r +:+ "/" +:+ "")
    with (String Path.sep (r +:+ String Path.sep "")).
  rewrite split_cons_sep, split_app_sep.
  change (Js.split Path.sep "") with [""].
  cbn [Path.normalize_segs]. rewrite bool_decide_eq_true_2 by by left.
  rewrite normalize_segs_plain by exact Hr.
  cbn [Path.normalize_segs]. rewrite bool_decide_eq_true_2 by by left.
  by rewrite app_nil_r, rev_involutive, join_split.
Qed.

(** A plain segment below a directory in normal form resolves to
    itself. *)
Lemma resolve_segment_below cwd dir segment :
  Path.absolute_normal dir = true → Path.relative_normal segment = true →
  Path.resolve cwd [dir +:+ "/" +:+ segment] = dir +:+ "/" +:+ segment.
Proof.
  intros Hdir Hseg. rewrite <- (resolve_below cwd dir segment) by done.
  apply resolve_idempotent.
Qed.

Lemma plain_relative_normal segment :
  Path.plain segment = true → Path.relative_normal segment = true.
Proof.
  intros H. unfold Path.relative_normal.
  assert (Js.includes_char segment Path.sep = false) as Hsep.
  { unfold Path.plain in H. apply andb_prop in H as [_ H].
    by apply negb_true_iff in H. }
  rewrite split_no_sep by done. simpl. by rewrite H.
Qed.

End PathMore.

(** ** More on the security validator *)

Module SecurityMore.
Import StringFacts PathFacts PathMore SecurityFacts.

Section Validate.

Variable cwd : string.

Lemma validated_is_resolved (requestedPath validated : string)
    (allowedBases : list string) :
  Security.validatePath cwd requestedPath allowedBases = Ok validated →
  validated = Path.resolve cwd [requestedPath]
  ∧ existsb (λ base, Security.within validated (Path.resolve cwd [base]))
      allowedBases = true.
Proof.
  unfold Security.validatePath.
  destruct (existsb _ allowedBases) eqn:Hallowed; [|done]. simpl.
  by intros [= <-].
Qed.

(** X1.  A path that [validatePath] returns is in normal form, and
    validating it again against the same bases returns it unchanged. *)
Theorem validatePath_result_revalidates (requestedPath validated : string)
    (allowedBases : list string) :
  Security.validatePath cwd requestedPath allowedBases = Ok validated →
  Path.resolve cwd [validated] = validated
  ∧ Security.validatePath cwd validated allowedBases = Ok validated.
Proof.
  unfold Security.validatePath.
  destruct (existsb _ allowedBases) eqn:Hallowed; [|done]. simpl.
  intros [= <-]. rewrite resolve_idempotent. by rewrite Hallowed.
Qed.

(** X2.  Acceptance depends on the bases as a set: a path accepted against
    some bases is accepted, with the same result, against any list that
    holds them all; against no base every path is refused. *)
Theorem validatePath_more_bases (requestedPath validated : string)
    (allowedBases moreBases : list string) :
  Security.validatePath cwd requestedPath allowedBases = Ok validated →
  allowedBases ⊆ moreBases →
  Security.validatePath cwd requestedPath moreBases = Ok validated
  ∧ Security.validatePath cwd requestedPath []
    = Throw ("Path not allowed: " +:+ requestedPath).
Proof.
  unfold Security.validatePath.
  destruct (existsb _ allowedBases) eqn:Hallowed; [|done]. simpl.
  intros [= <-] Hsub. split; [|done].
  apply allowed_iff_contained in Hallowed as (base & Hbase & Hin).
  assert (existsb (λ base, Security.within (Path.resolve cwd [requestedPath])
                             (Path.resolve cwd [base])) moreBases = true) as ->;
    [|done].
  apply allowed_iff_contained. exists base. split; [by apply Hsub|done].
Qed.

End Validate.

(** *** The sanitizer gives a safe segment *)

Lemma file_has_no_unsafe_char c :
  Security.is_separator c = true ∨ Security.is_dangerous c = true →
  Js.includes_char "file" c = false.
Proof.
  intros H. cbn [Js.includes_char].
  repeat match goal with
         | |- context [Ascii.eqb ?a c] =>
             destruct (Ascii.eqb_spec a c) as [<-|_]; [by destruct H|]
         end.
  done.
Qed.

Lemma trimmed_is_plain s :
  s ≠ "" → Security.trim_start s = s → Js.includes_char s "/" = false →
  Path.plain s = true.
Proof.
  intros Hne Htrim Hsep. unfold Path.plain, Path.sep.
  rewrite Hsep, (bool_decide_eq_false_2 (s = "")) by done.
  rewrite !bool_decide_eq_false_2; [done| |]; by intros ->.
Qed.

Lemma sanitized_segment filename :
  let safe := Security.sanitizeFilename filename in
  safe ≠ ""
  ∧ Path.plain safe = true
  ∧ (∀ c, Security.is_separator c = true ∨ Security.is_dangerous c = true →
          Js.includes_char safe c = false)
  ∧ Security.trim_start safe = safe
  ∧ Security.trim_end safe = safe.
Proof.
  cbn zeta. unfold Security.sanitizeFilename.
  set (cleaned := Js.remove_chars Security.is_dangerous
                    (Security.remove_dotdot
                       (Js.remove_chars Security.is_separator filename))).
  case_bool_decide as Hempty.
  { split_and!; [done|done|apply file_has_no_unsafe_char|done|done]. }
  assert (∀ c, Security.is_separator c = true ∨ Security.is_dangerous c = true →
               Js.includes_char (Security.trim cleaned) c = false) as Hchars.
  { intros c [Hc|Hc]; apply trim_keeps.
    - by apply remove_chars_keeps, remove_dotdot_keeps, remove_chars_clean.
    - by apply remove_chars_clean. }
  assert (Security.trim_start (Security.trim cleaned) = Security.trim cleaned)
    as Hstart.
  { unfold Security.trim. apply trim_start_end, trim_start_id. }
  split_and!; [done| |done|done|].
  - apply trimmed_is_plain; [done..|]. apply Hchars. by left.
  - unfold Security.trim. apply trim_end_id.
Qed.

(** X3.  Whatever the name, the sanitized name is one safe path segment: it
    is not empty, it is neither of the dot segments, it holds no
    separator and no control or reserved character, and it neither
    starts nor ends with white space or a dot. *)
Theorem sanitizeFilename_safe_segment filename :
  let safe := Security.sanitizeFilename filename in
  safe ≠ ""
  ∧ Path.plain safe = true
  ∧ (∀ c, Security.is_separator c = true ∨ Security.is_dangerous c = true →
          Js.includes_char safe c = false)
  ∧ Security.trim_start safe = safe
  ∧ Security.trim_end safe = safe.
Proof. apply sanitized_segment. Qed.

(** X4.  A sanitized name appended to a directory names a file in that
    directory: [validatePath] accepts it against the directory alone,
    and returns it as it is. *)
Theorem sanitized_name_stays_in_directory cwd dir filename :
  Path.absolute_normal dir = true →
  Security.validatePath cwd
    (dir +:+ "/" +:+ Security.sanitizeFilename filename) [dir]
  = Ok (dir +:+ "/" +:+ Security.sanitizeFilename filename).
Proof.
  intros Hdir.
  destruct (sanitized_segment filename) as (_ & Hplain & _).
  unfold Security.validatePath.
  rewrite resolve_segment_below by (done || by apply plain_relative_normal).
  cbn [existsb]. rewrite resolve_absolute_normal by done.
  by rewrite within_below.
Qed.

(** *** The extension check does not look at the case *)

Lemma lower_char_keeps (c : ascii) a :
  (c = "/" ∨ c = ".")%char →
  Ascii.eqb (Js.lower_char a) c = Ascii.eqb a c.
Proof.
  intros [-> | ->]; by destruct a as [[] [] [] [] [] [] [] []].
Qed.

Lemma lower_char_idempotent a :
  Js.lower_char (Js.lower_char a) = Js.lower_char a.
Proof. by destruct a as [[] [] [] [] [] [] [] []]. Qed.

Lemma toLowerCase_idempotent s :
  Js.toLowerCase (Js.toLowerCase s) = Js.toLowerCase s.
Proof.
  induction s as [|a s IH]; [done|]. simpl.
  by rewrite lower_char_idempotent, IH.
Qed.

Lemma toLowerCase_length s :
  String.length (Js.toLowerCase s) = String.length s.
Proof. induction s as [|a s IH]; [done|]. simpl. by rewrite IH. Qed.

Lemma toLowerCase_chars s :
  String.list_ascii_of_string (Js.toLowerCase s)
  = map Js.lower_char (String.list_ascii_of_string s).
Proof. induction s as [|a s IH]; [done|]. simpl. by rewrite IH. Qed.

Lemma toLowerCase_of_chars l :
  String.string_of_list_ascii (map Js.lower_char l)
  = Js.toLowerCase (String.string_of_list_ascii l).
Proof. induction l as [|a l IH]; [done|]. simpl. by rewrite IH. Qed.

Lemma skip_while_map (f : ascii → bool) (g : ascii → ascii) l :
  (∀ a, f (g a) = f a) →
  Path.skip_while f (map g l) = map g (Path.skip_while f l).
Proof.
  intros Hf. induction l as [|a l IH]; [done|]. simpl. rewrite Hf.
  by destruct (f a).
Qed.

Lemma last_segment_lower p :
  Path.last_segment (Js.toLowerCase p) = Js.toLowerCase (Path.last_segment p).
Proof.
  unfold Path.last_segment.
  rewrite toLowerCase_chars, <- map_rev.
  rewrite !skip_while_map, !length_map;
    [|intros a; unfold Path.sep; by rewrite lower_char_keeps by by left..].
  by rewrite firstn_map, <- map_rev, toLowerCase_of_chars.
Qed.

Lemma last_dot_suffix_lower s :
  Path.last_dot_suffix (Js.toLowerCase s)
  = Js.toLowerCase <$> Path.last_dot_suffix s.
Proof.
  induction s as [|a s IH]; [done|]. simpl. rewrite IH.
  destruct (Path.last_dot_suffix s); [done|]. simpl.
  rewrite lower_char_keeps by by right. by destruct (Ascii.eqb a ".").
Qed.

Lemma last_dot_suffix_length s e :
  Path.last_dot_suffix s = Some e →
  String.length e ≤ String.length s
  ∧ (String.length e = String.length s → e = s).
Proof.
  revert e. induction s as [|a s IH]; intros e; [done|]. simpl.
  destruct (Path.last_dot_suffix s) as [e'|].
  - intros [= <-]. destruct (IH e' eq_refl) as [Hle _]. split; lia.
  - destruct (Ascii.eqb a "."); [|done]. by intros [= <-].
Qed.

Lemma toLowerCase_two_dots s : Js.toLowerCase s = ".." ↔ s = "..".
Proof.
  split; [|by intros ->].
  destruct s as [|a [|b [|c s]]]; try done. simpl. intros [= Ha Hb].
  assert (∀ x, Js.lower_char x = "."%char → x = "."%char) as Hdot.
  { intros x. by destruct x as [[] [] [] [] [] [] [] []]. }
  by rewrite (Hdot a Ha), (Hdot b Hb).
Qed.

Lemma extname_lower p :
  Path.extname (Js.toLowerCase p) = Js.toLowerCase (Path.extname p).
Proof.
  unfold Path.extname. rewrite last_segment_lower, last_dot_suffix_lower.
  set (seg := Path.last_segment p).
  destruct (Path.last_dot_suffix seg) as [e|] eqn:He; [|done]. simpl.
  destruct (last_dot_suffix_length _ _ He) as [_ Hsame].
  assert (bool_decide (Js.toLowerCase e = Js.toLowerCase seg)
          = bool_decide (e = seg)) as ->.
  { apply bool_decide_ext. split; [|by intros ->].
    intros Hlow. apply Hsame.
    by rewrite <- (toLowerCase_length e), Hlow, toLowerCase_length. }
  rewrite (bool_decide_ext _ _ (toLowerCase_two_dots seg)).
  by destruct (_ || _).
Qed.

(** X6.  The extension check gives the same answer for a name and for the
    name in lower case: upper-case letters in the extension do not
    matter. *)
Theorem isAllowedImageExtension_ignores_case filename :
  Security.isAllowedImageExtension (Js.toLowerCase filename)
  = Security.isAllowedImageExtension filename.
Proof.
  unfold Security.isAllowedImageExtension.
  by rewrite extname_lower, toLowerCase_idempotent.
Qed.

Lemma sanitized_name_stays_in_directory_witness :
  Security.validatePath "/proj" ("/tmp/plannotator" +:+ "/"
     +:+ Security.sanitizeFilename "../../etc/passwd") ["/tmp/plannotator"]
  = Ok ("/tmp/plannotator" +:+ "/"
        +:+ Security.sanitizeFilename "../../etc/passwd").
Proof.
  exact (sanitized_name_stays_in_directory "/proj" "/tmp/plannotator"
           "../../etc/passwd" eq_refl).
Defined.

Lemma validatePath_result_revalidates_witness :
  Path.resolve "/proj" ["/proj/docs"] = "/proj/docs"
  ∧ Security.validatePath "/proj" "/proj/docs" ["/home/u"; "/proj/"]
    = Ok "/proj/docs".
Proof.
  exact (validatePath_result_revalidates "/proj" "docs/../docs/." "/proj/docs"
           ["/home/u"; "/proj/"] eq_refl).
Defined.

Lemma validatePath_more_bases_witness :
  Security.validatePath "/proj" "a/x.md" ["/tmp"; "/proj"; "/home/u"]
  = Ok "/proj/a/x.md"
  ∧ Security.validatePath "/proj" "a/x.md" [] = Throw "Path not allowed: a/x.md".
Proof.
  apply (validatePath_more_bases "/proj" "a/x.md" "/proj/a/x.md" ["/proj"]
           ["/tmp"; "/proj"; "/home/u"] eq_refl).
  intros base ->%list_elem_of_singleton.
  apply elem_of_cons. right. apply elem_of_cons. by left.
Defined.

Lemma sanitizeFilename_idempotent_without_dotdot_witness :
  Security.sanitizeFilename (Security.sanitizeFilename " ../report?.md. ")
  = Security.sanitizeFilename " ../report?.md. ".
Proof.
  exact (sanitizeFilename_idempotent_without_dotdot " ../report?.md. " eq_refl).
Defined.

End SecurityMore.

(** ** More on the routes of the document server *)

Module DocServerMore.
Import StringFacts DocServer.

(** X7.  A linked document is answered as a read-only copy that is not the
    main document: the answer carries the contents of the file at the
    path it names. *)
Theorem linked_document_read_only_copy cwd home (fs : gmap string string)
    session requestedPath content path isMain readOnly :
  linked_document (on_disk cwd home fs) session requestedPath
  = DocJson content path isMain readOnly →
  isMain = false ∧ readOnly = true ∧ Fs.read cwd fs path = Some content.
Proof.
  unfold linked_document.
  destruct (locate _ session requestedPath) as [[p found|]|]; [|done..].
  destruct (isAllowed _ session p); [|done]. cbn [negb].
  destruct found; [|done]. cbn [negb file_text on_disk].
  unfold Fs.text. destruct (Fs.read cwd fs p) as [text|] eqn:Hread; [|done].
  by intros [= <- <- <- <-].
Qed.

Lemma linked_document_read_only_copy_witness :
  false = false ∧ true = true
  ∧ Fs.read "/proj" Examples.project "/proj/a/x.md" = Some "from a".
Proof.
  exact (linked_document_read_only_copy "/proj" "/home/u" Examples.project
           Examples.session "a/x.md" "from a" "/proj/a/x.md" false true
           eq_refl).
Defined.

Lemma includes_middle before needle after :
  Js.includes (before +:+ needle +:+ after) needle = true.
Proof.
  induction before as [|a before IH].
  - change (Js.includes (needle +:+ after) needle = true).
    assert (∀ s p, String.prefix p s = true → Js.includes s p = true) as H.
    { intros s p Hp. destruct s; cbn [Js.includes]; by rewrite Hp. }
    apply H, prefix_app.
  - change (Js.includes (String a (before +:+ needle +:+ after)) needle = true).
    cbn [Js.includes]. rewrite IH. by destruct (String.prefix _ _).
Qed.

Section Routes.

Variable rt : Runtime.
Variable session : Session.

Local Abbreviation bases :=
  ["/tmp/plannotator"; homedir rt; baseDir rt session].

(** X8.  The image route serves a file only from within its three bases:
    what it serves is the resolved request, contained in a base and
    present; a request resolved outside every base is answered with
    status 403, and one inside without a file with status 404. *)
Theorem api_image_serves_within_bases imagePath :
  imagePath ≠ "" →
  let resolved := Path.resolve (cwd rt) [imagePath] in
  (∀ served, api_image rt session (Some imagePath) = FileResponse served →
     served = resolved
     ∧ Security.contained (cwd rt) resolved bases
     ∧ file_exists rt resolved = true)
  ∧ (¬ Security.contained (cwd rt) resolved bases →
     api_image rt session (Some imagePath) = TextResponse 403 "Access denied")
  ∧ (Security.contained (cwd rt) resolved bases →
     file_exists rt resolved = false →
     api_image rt session (Some imagePath) = TextResponse 404 "File not found").
Proof.
  intros Hne resolved. unfold api_image.
  rewrite bool_decide_eq_false_2 by done.
  pose proof (SecurityFacts.allowed_iff_contained (cwd rt) resolved bases) as H.
  unfold Security.validatePath. fold resolved.
  destruct (existsb _ bases); cbn [negb].
  - assert (Security.contained (cwd rt) resolved bases) as Hin by by apply H.
    split_and!.
    + intros served. destruct (file_exists rt resolved); [|done].
      by intros [= <-].
    + done.
    + by intros _ ->.
  - assert (¬ Security.contained (cwd rt) resolved bases) as Hout.
    { intros Hin. by apply H in Hin. }
    assert (Js.includes ("Path not allowed: " +:+ imagePath) "Path not allowed"
            = true) as ->.
    { apply (includes_middle "" "Path not allowed" (": " +:+ imagePath)). }
    split_and!; done.
Qed.

End Routes.

Lemma api_image_serves_within_bases_witness :
  let resolved := Path.resolve "/proj" ["/home/u/../../etc/passwd"] in
  let bases := ["/tmp/plannotator"; "/home/u"; "/proj/docs"] in
  (∀ served,
     api_image Examples.runtime Examples.session
       (Some "/home/u/../../etc/passwd") = FileResponse served →
     served = resolved
     ∧ Security.contained "/proj" resolved bases
     ∧ file_exists Examples.runtime resolved = true)
  ∧ (¬ Security.contained "/proj" resolved bases →
     api_image Examples.runtime Examples.session
       (Some "/home/u/../../etc/passwd") = TextResponse 403 "Access denied")
  ∧ (Security.contained "/proj" resolved bases →
     file_exists Examples.runtime resolved = false →
     api_image Examples.runtime Examples.session
       (Some "/home/u/../../etc/passwd")
     = TextResponse 404 "File not found").
Proof.
  apply (api_image_serves_within_bases Examples.runtime Examples.session
           "/home/u/../../etc/passwd").
  discriminate.
Defined.

End DocServerMore.

(** ** The text of a feedback decision *)

Module FeedbackFacts.
Import StringFacts DocServer.

Lemma includes_app_r before s needle :
  Js.includes s needle = true → Js.includes (before +:+ s) needle = true.
Proof.
  intros H. induction before as [|a before IH]; [done|].
  change (Js.includes (String a (before +:+ s)) needle = true).
  cbn [Js.includes]. rewrite IH. by destruct (String.prefix _ _).
Qed.

Lemma prefix_app_l p s after :
  String.prefix p s = true → String.prefix p (s +:+ after) = true.
Proof.
  intros [r ->]%prefix_inv. rewrite sapp_assoc. apply prefix_app.
Qed.

Lemma includes_app_l s after needle :
  Js.includes s needle = true → Js.includes (s +:+ after) needle = true.
Proof.
  induction s as [|a s IH].
  - cbn [Js.includes]. destruct (String.prefix needle "") eqn:Hp; [|done].
    intros _. apply (prefix_app_l _ _ after) in Hp.
    change ("" +:+ after) with after in *.
    destruct after; cbn [Js.includes]; by rewrite Hp.
  - change (String a s +:+ after) with (String a (s +:+ after)).
    cbn [Js.includes].
    destruct (String.prefix needle (String a s)) eqn:Hp.
    + apply (prefix_app_l _ _ after) in Hp.
      change (String a s +:+ after) with (String a (s +:+ after)) in Hp.
      by rewrite Hp.
    + intros H. rewrite IH by done.
      by destruct (String.prefix needle (String a (s +:+ after))).
Qed.

Lemma includes_self s : Js.includes s s = true.
Proof.
  pose proof (prefix_app s "") as H. rewrite sapp_empty_r in H.
  destruct s; cbn [Js.includes]; by rewrite H.
Qed.

Section Feedback.

Variable annotation : Type.
Variable session : Session.

Lemma lines_includes (f : string → string) (paths : list string) path :
  path ∈ paths → Js.includes (lines f paths) (f path) = true.
Proof.
  induction paths as [|p paths IH]; [by intros ?%not_elem_of_nil|].
  intros [->|Hin]%elem_of_cons; cbn [lines foldr].
  - apply includes_app_l, includes_self.
  - by apply includes_app_r, IH.
Qed.

(** X9.  Without linked documents, or with both lists empty, the feedback
    delivered is the reviewer's text followed by the status envelope,
    and nothing else; a missing text counts as the empty text and
    missing annotations as none. *)
Theorem feedback_without_linked_documents (fields : FeedbackBody annotation) :
  body_linkedDocs annotation fields = None
  ∨ body_linkedDocs annotation fields = Some {| viewed := []; requested := [] |} →
  feedback_decision session (JsonObject fields)
  = Ok {| approved := false;
          feedback :=
            Some (default "" (body_feedback annotation fields) +:+ status_envelope session);
          annotations := Some (default [] (body_annotations annotation fields));
          agentSwitch := body_agentSwitch annotation fields |}.
Proof.
  intros Hlinks. unfold feedback_decision.
  cbn [req_json get mbind result_bind].
  by destruct Hlinks as [-> | ->]; cbn; rewrite sapp_empty_r.
Qed.

(** X10.  With linked documents, the feedback delivered starts with the
    reviewer's text and ends with the status envelope; in between every
    requested path is listed as a review request and given its
    follow-up command, and every path viewed but not requested is
    listed as viewed only. *)
Theorem feedback_lists_linked_documents (fields : FeedbackBody annotation)
    (linkedDocs : LinkedDocs) :
  body_linkedDocs annotation fields = Some linkedDocs →
  ∃ d text middle,
    feedback_decision session (JsonObject fields) = Ok d
    ∧ approved d = false
    ∧ feedback d = Some text
    ∧ text = default "" (body_feedback annotation fields) +:+ middle
             +:+ status_envelope session
    ∧ (∀ path, path ∈ requested linkedDocs →
         Js.includes middle
           ("- " +:+ path +:+ " **(review requested)**" +:+ Js.nl) = true
         ∧ Js.includes middle
             ("`/plannotator-doc " +:+ path +:+ "`" +:+ Js.nl) = true)
    ∧ (∀ path, path ∈ viewed linkedDocs → path ∉ requested linkedDocs →
         Js.includes middle ("- " +:+ path +:+ " (viewed only)" +:+ Js.nl)
         = true).
Proof.
  intros Hlinks. unfold feedback_decision.
  cbn [req_json get mbind result_bind]. rewrite Hlinks.
  cbn [from_option]. eexists _, _, (linked_docs_section linkedDocs).
  split; [done|]. cbn [approved feedback].
  split; [done|]. split; [done|]. split; [by rewrite sapp_assoc|].
  unfold linked_docs_section.
  assert (∀ l : list string, (∃ x, x ∈ l) → bool_decide (0 < length l) = true)
    as Hnonempty.
  { intros [|x l] [y Hy]; [by apply not_elem_of_nil in Hy|done]. }
  split.
  - intros path Hpath.
    rewrite (Hnonempty (requested linkedDocs)) by eauto.
    rewrite orb_true_r. split.
    + do 6 apply includes_app_r. apply includes_app_l.
      by apply (lines_includes
                  (λ p, "- " +:+ p +:+ " **(review requested)**" +:+ Js.nl)).
    + do 8 apply includes_app_r. do 3 apply includes_app_r.
      by apply (lines_includes
                  (λ p, "`/plannotator-doc " +:+ p +:+ "`" +:+ Js.nl)).
  - intros path Hviewed Hnot.
    rewrite (Hnonempty (viewed linkedDocs)) by eauto. cbn [orb].
    do 7 apply includes_app_r. apply includes_app_l.
    pose proof (lines_includes
                  (λ p, if bool_decide (p ∈ requested linkedDocs) then ""
                        else "- " +:+ p +:+ " (viewed only)" +:+ Js.nl)
                  (viewed linkedDocs) path Hviewed) as H.
    cbn beta in H. by rewrite bool_decide_eq_false_2 in H.
Qed.

End Feedback.

Lemma feedback_without_linked_documents_witness :
  feedback_decision Examples.session
    (JsonObject {| body_feedback := Some "Tighten section 2.";
                   body_annotations := @None (list ());
                   body_agentSwitch := None;
                   body_linkedDocs := None |})
  = Ok {| approved := false;
          feedback :=
            Some ("Tighten section 2." +:+ status_envelope Examples.session);
          annotations := Some [];
          agentSwitch := None |}.
Proof.
  apply (feedback_without_linked_documents () Examples.session
           {| body_feedback := Some "Tighten section 2.";
              body_annotations := None;
              body_agentSwitch := None;
              body_linkedDocs := None |}).
  by left.
Defined.

Lemma feedback_lists_linked_documents_witness :
  let linkedDocs := {| viewed := ["a.md"; "b.md"]; requested := ["b.md"] |} in
  let fields :=
    {| body_feedback := Some "See the linked notes.";
       body_annotations := @None (list ());
       body_agentSwitch := None;
       body_linkedDocs := Some linkedDocs |} in
  ∃ d text middle,
    feedback_decision Examples.session (JsonObject fields) = Ok d
    ∧ approved d = false
    ∧ feedback d = Some text
    ∧ text = default "" (body_feedback () fields) +:+ middle
             +:+ status_envelope Examples.session
    ∧ (∀ path, path ∈ requested linkedDocs →
         Js.includes middle
           ("- " +:+ path +:+ " **(review requested)**" +:+ Js.nl) = true
         ∧ Js.includes middle
             ("`/plannotator-doc " +:+ path +:+ "`" +:+ Js.nl) = true)
    ∧ (∀ path, path ∈ viewed linkedDocs → path ∉ requested linkedDocs →
         Js.includes middle ("- " +:+ path +:+ " (viewed only)" +:+ Js.nl)
         = true).
Proof.
  intros linkedDocs fields.
  exact (feedback_lists_linked_documents () Examples.session fields linkedDocs
           eq_refl).
Defined.

End FeedbackFacts.

(** ** The upload route *)

Module UploadFacts.
Import StringFacts PathFacts PathMore Upload.

Lemma split_pieces_keep c d s piece :
  Js.includes_char s d = false → piece ∈ Js.split c s →
  Js.includes_char piece d = false.
Proof.
  revert piece. induction s as [|a s IH]; intros piece; simpl.
  - by intros _ ->%list_elem_of_singleton.
  - destruct (Ascii.eqb a d) eqn:Ed; [done|]. intros Hs.
    pose proof (split_not_nil c s).
    destruct (Ascii.eqb a c).
    + intros [->|H']%elem_of_cons; [done|by apply IH].
    + destruct (Js.split c s) as [|h t]; [done|].
      intros [->|H']%elem_of_cons.
      * simpl. rewrite Ed. apply IH; [done|by left].
      * apply IH; [done|by right].
Qed.

Lemma last_elem_of {A} (l : list A) x : last l = Some x → x ∈ l.
Proof.
  intros [l' ->]%last_Some. apply elem_of_app. right. by left.
Qed.

(** The extension kept for the stored file is never empty and holds no
    dot, no slash and no backslash, whatever the name of the upload. *)
Lemma extension_is_one_piece filename :
  extension filename ≠ ""
  ∧ ∀ c, c = "."%char ∨ Security.is_separator c = true →
         Js.includes_char (extension filename) c = false.
Proof.
  unfold extension.
  destruct (last (Js.split "." (Security.sanitizeFilename filename)))
    as [piece|] eqn:Hlast; [|split; [done|]].
  - apply last_elem_of in Hlast. case_bool_decide as Hpiece.
    + split; [done|]. intros c [-> | Hc]; [done|].
      unfold Security.is_separator in Hc.
      by apply orb_true_iff in Hc as [->%Ascii.eqb_eq | ->%Ascii.eqb_eq].
    + split; [done|]. intros c [-> | Hc].
      * by eapply split_elements.
      * eapply split_pieces_keep; [|done].
        by apply SecurityFacts.sanitizeFilename_no_separator.
  - intros c [-> | Hc]; [done|]. unfold Security.is_separator in Hc.
    by apply orb_true_iff in Hc as [->%Ascii.eqb_eq | ->%Ascii.eqb_eq].
Qed.

Lemma length_sapp s t :
  String.length (s +:+ t) = String.length s + String.length t.
Proof. induction s as [|a s IH]; [done|]. rewrite sapp_cons. simpl. lia. Qed.

Section Route.

Variable cwd : string.
Variable faults : Atomic.Faults string.
Variable uuid : string.

Local Abbreviation tempPath := (tempPath uuid).
Local Abbreviation api_upload := (api_upload cwd faults uuid).

Lemma upload_outcomes (f : form) (fs : gmap string string) :
  match api_upload f fs with
  | (fs', Uploaded path) =>
      ∃ file, f = FileField file
        ∧ (size file ≤ MAX_FILE_SIZE)%N
        ∧ Security.isAllowedImageExtension (name file) = true
        ∧ path = tempPath (name file)
        ∧ fs' = <[Fs.key cwd path := data file]> fs
  | (fs', Refused status _) =>
      fs' = fs
      ∧ (status = 413 → ∃ file, f = FileField file
                          ∧ (MAX_FILE_SIZE < size file)%N)
  | (fs', Failed _) => True
  end.
Proof.
  unfold Upload.api_upload. destruct f as [message| |file]; [done|done|].
  destruct (N.ltb_spec MAX_FILE_SIZE (size file)) as [Hbig|Hsmall].
  { split; [done|]. intros _. by exists file. }
  destruct (Security.isAllowedImageExtension (name file)) eqn:Hext;
    cbn [negb]; [|done].
  unfold Atomic.bind, Atomic.mkdirSync, Atomic.Bun_write, Atomic.throw,
    Atomic.ret.
  destruct (Atomic.mkdir_fault faults); [done|].
  destruct (Atomic.write_fault faults) as [[e [partial|]]|]; [done..|].
  by exists file.
Qed.

(** X11.  A stored upload is small and has an allowed extension, and it is
    the only change to the files: the answer [Uploaded] is given only
    for a file of at most 10 MiB whose name passes the extension check,
    and the bytes of the file are then at the path answered; every
    refusal, of a missing file, of the size or of the extension, leaves
    the files as they were, and the size is refused whatever the
    name. *)
Theorem upload_stores_only_small_images (f : form) (fs : gmap string string) :
  match api_upload f fs with
  | (fs', Uploaded path) =>
      ∃ file, f = FileField file
        ∧ (size file ≤ MAX_FILE_SIZE)%N
        ∧ Security.isAllowedImageExtension (name file) = true
        ∧ path = tempPath (name file)
        ∧ fs' = <[Fs.key cwd path := data file]> fs
  | (fs', Refused status _) =>
      fs' = fs
      ∧ (status = 413 → ∃ file, f = FileField file
                          ∧ (MAX_FILE_SIZE < size file)%N)
  | (fs', Failed _) => True
  end.
Proof. apply upload_outcomes. Qed.

Lemma temp_path_validates filename :
  uuid ≠ "" → Js.includes_char uuid "/" = false →
  Path.resolve cwd [tempPath filename] = tempPath filename
  ∧ Security.within (tempPath filename) (Path.resolve cwd [tempDir]) = true.
Proof.
  intros Hne Hsep. destruct (extension_is_one_piece filename) as [Hext Hchars].
  assert (Path.plain (uuid +:+ "." +:+ extension filename) = true) as Hplain.
  { unfold Path.plain, Path.sep. rewrite !includes_char_app, Hsep.
    rewrite (Hchars "/"%char) by by right.
    assert (3 ≤ String.length (uuid +:+ "." +:+ extension filename)) as Hlen.
    { rewrite !length_sapp.
      destruct uuid; [done|]. destruct (extension filename); [done|].
      simpl. lia. }
    rewrite !bool_decide_eq_false_2; [done|..]; intros Heq;
      by rewrite Heq in Hlen; simpl in Hlen; lia. }
  unfold Upload.tempPath.
  rewrite resolve_segment_below by (done || by apply plain_relative_normal).
  rewrite resolve_absolute_normal by done.
  by rewrite within_below.
Qed.

(** X12.  Whatever the name of the upload, the path it is stored at lies in
    the temporary directory: [validatePath] accepts it against that
    directory alone and returns it as it is; its last segment is the
    identifier, a dot and an extension without dot or separator. *)
Theorem upload_path_in_temp_dir filename :
  uuid ≠ "" → Js.includes_char uuid "/" = false →
  Security.validatePath cwd (tempPath filename) [tempDir]
  = Ok (tempPath filename)
  ∧ extension filename ≠ ""
  ∧ ∀ c, c = "."%char ∨ Security.is_separator c = true →
         Js.includes_char (extension filename) c = false.
Proof.
  intros Hne Hsep. split; [|apply extension_is_one_piece].
  destruct (temp_path_validates filename Hne Hsep) as [Hnormal Hin].
  unfold Security.validatePath. rewrite Hnormal. cbn [existsb].
  by rewrite Hin.
Qed.

End Route.

(** X13.  A stored upload can be fetched back: the image route of a server
    that sees the files left by the upload serves the path answered. *)
Theorem uploaded_file_is_served cwd home faults uuid session
    (f : form) (fs fs' : gmap string string) path :
  uuid ≠ "" → Js.includes_char uuid "/" = false →
  api_upload cwd faults uuid f fs = (fs', Uploaded path) →
  DocServer.api_image (DocServer.on_disk cwd home fs') session (Some path)
  = DocServer.FileResponse path.
Proof.
  intros Hne Hsep Hup.
  pose proof (upload_outcomes cwd faults uuid f fs) as H.
  rewrite Hup in H. destruct H as (file & -> & _ & _ & -> & ->).
  destruct (temp_path_validates cwd uuid (name file) Hne Hsep)
    as [Hnormal Hin].
  apply DocServerFacts.api_image_ignores_extension.
  - unfold Upload.tempPath, tempDir. by intros [=].
  - cbn [DocServer.cwd DocServer.homedir DocServer.on_disk].
    unfold Security.validatePath. rewrite Hnormal. cbn [existsb].
    unfold tempDir in Hin. by rewrite Hin.
  - cbn [DocServer.file_exists DocServer.on_disk].
    unfold Fs.exists_, Fs.read. rewrite lookup_insert_eq.
    by apply bool_decide_eq_true_2.
Qed.

Lemma upload_path_in_temp_dir_witness :
  Security.validatePath "/proj" (tempPath "3f2a" "../../etc/evil.PNG") [tempDir]
  = Ok (tempPath "3f2a" "../../etc/evil.PNG")
  ∧ extension "../../etc/evil.PNG" ≠ ""
  ∧ ∀ c, c = "."%char ∨ Security.is_separator c = true →
         Js.includes_char (extension "../../etc/evil.PNG") c = false.
Proof.
  apply (upload_path_in_temp_dir "/proj" "3f2a" "../../etc/evil.PNG").
  - discriminate.
  - reflexivity.
Defined.

Lemma uploaded_file_is_served_witness :
  DocServer.api_image
    (DocServer.on_disk "/proj" "/home/u"
       (<["/tmp/plannotator/3f2a.png" := "PNG bytes"]> Examples.project))
    Examples.session (Some "/tmp/plannotator/3f2a.png")
  = DocServer.FileResponse "/tmp/plannotator/3f2a.png".
Proof.
  apply (uploaded_file_is_served "/proj" "/home/u"
           {| Atomic.mkdir_fault := None; Atomic.write_fault := None;
              Atomic.rename_fault := None; Atomic.unlink_fault := None |}
           "3f2a" Examples.session
           (FileField {| name := "shot.png"; size := 1024;
                         data := "PNG bytes" |})
           Examples.project).
  - discriminate.
  - reflexivity.
  - reflexivity.
Defined.

End UploadFacts.

(** ** Binding the port *)

Module StartupFacts.
Import Startup.

Section Retry.

Variable server : Type.
Variable serve : nat → bound server.
Variable isRemote : bool.
Variable configuredPort : N.

Local Abbreviation bind_port := (bind_port server serve isRemote configuredPort).
Local Abbreviation start := (start server serve isRemote configuredPort).
Local Abbreviation in_use := (in_use server serve).
Local Abbreviation port_in_use := (port_in_use isRemote configuredPort).

Lemma bind_port_listening attempt s :
  attempt ≤ MAX_RETRIES → serve attempt = Listening s →
  bind_port attempt = {| outcome := Ok s; sleeps := [] |}.
Proof.
  intros Hle Hs. simp bind_port.
  destruct (decide (attempt ≤ MAX_RETRIES)); [|done]. simpl. by rewrite Hs.
Qed.

Lemma bind_port_other_error attempt message :
  attempt ≤ MAX_RETRIES → serve attempt = BindError message →
  Js.includes message "EADDRINUSE" = false →
  bind_port attempt = {| outcome := Throw message; sleeps := [] |}.
Proof.
  intros Hle Hs Hother. simp bind_port.
  destruct (decide (attempt ≤ MAX_RETRIES)); [|done]. simpl.
  by rewrite Hs, Hother.
Qed.

Lemma bind_port_retry attempt :
  attempt < MAX_RETRIES → in_use attempt →
  bind_port attempt = slept server RETRY_DELAY_MS (bind_port (S attempt)).
Proof.
  intros Hlt (message & Hs & Hbusy).
  remember (bind_port (S attempt)) as next eqn:Hnext. simp bind_port.
  destruct (decide (attempt ≤ MAX_RETRIES)); [|lia]. simpl.
  rewrite Hs, Hbusy. rewrite bool_decide_eq_true_2 by done. by subst next.
Qed.

Lemma bind_port_last attempt :
  attempt = MAX_RETRIES → in_use attempt →
  bind_port attempt = {| outcome := Throw port_in_use; sleeps := [] |}.
Proof.
  intros -> (message & Hs & Hbusy). simp bind_port. simpl.
  by rewrite Hs, Hbusy.
Qed.

(** As long as the port is taken, the loop sleeps and tries again. *)
Lemma bind_port_skips first decisive :
  first ≤ decisive ≤ MAX_RETRIES →
  (∀ attempt, first ≤ attempt < decisive → in_use attempt) →
  bind_port first
  = {| outcome := outcome (bind_port decisive);
       sleeps := replicate (decisive - first) RETRY_DELAY_MS
                 ++ sleeps (bind_port decisive) |}.
Proof.
  intros [Hle Hmax] Hbusy.
  remember (decisive - first) as n eqn:Hn. revert first Hle Hbusy Hn.
  induction n as [|n IH]; intros first Hle Hbusy Hn.
  - assert (first = decisive) as -> by lia. by destruct (bind_port decisive).
  - rewrite bind_port_retry by (lia || apply Hbusy; lia).
    rewrite (IH (S first)) by (lia || intros; apply Hbusy; lia).
    reflexivity.
Qed.

(** X14.  The start ends at the first attempt, out of five, that does not
    find the port taken: with the server if the call succeeded, with
    the error of the call, unchanged, if it failed otherwise.  Before
    it, each attempt that found the port taken was followed by a sleep
    of 500 ms. *)
Theorem start_ends_at_first_decisive_attempt decisive :
  1 ≤ decisive ≤ MAX_RETRIES →
  (∀ attempt, 1 ≤ attempt < decisive → in_use attempt) →
  ¬ in_use decisive →
  start
  = {| outcome :=
         match serve decisive with
         | Listening s => Ok s
         | BindError message => Throw message
         end;
       sleeps := replicate (decisive - 1) RETRY_DELAY_MS |}.
Proof.
  intros Hrange Hbusy Hfree. unfold Startup.start.
  rewrite (bind_port_skips 1 decisive) by done.
  destruct (serve decisive) as [s|message] eqn:Hs.
  - rewrite (bind_port_listening decisive s) by (lia || done).
    by rewrite app_nil_r.
  - rewrite (bind_port_other_error decisive message); [by rewrite app_nil_r|lia|done|].
    destruct (Js.includes message "EADDRINUSE") eqn:Hin; [|done].
    destruct Hfree. by exists message.
Qed.

(** X15.  When all five attempts find the port taken, the start throws the
    port-in-use error, which names the port and the five tries and,
    in remote mode only, the variable that changes the port; it has
    slept four times, and there is no sixth attempt. *)
Theorem start_gives_up_after_five_attempts :
  (∀ attempt, 1 ≤ attempt ≤ MAX_RETRIES → in_use attempt) →
  start
  = {| outcome := Throw port_in_use;
       sleeps := replicate 4 RETRY_DELAY_MS |}.
Proof.
  intros Hbusy. unfold Startup.start.
  rewrite (bind_port_skips 1 MAX_RETRIES);
    [|unfold MAX_RETRIES; lia|intros; apply Hbusy; lia].
  rewrite bind_port_last by (done || apply Hbusy; unfold MAX_RETRIES; lia).
  reflexivity.
Qed.

End Retry.

Lemma bind_port_agree server (serve serve' : nat → bound server)
    isRemote configuredPort attempt :
  (∀ k, attempt ≤ k ≤ MAX_RETRIES → serve k = serve' k) →
  Startup.bind_port server serve isRemote configuredPort attempt
  = Startup.bind_port server serve' isRemote configuredPort attempt.
Proof.
  intros Hagree.
  remember (S MAX_RETRIES - attempt) as n eqn:Hn. revert attempt Hagree Hn.
  induction n as [|n IH]; intros attempt Hagree Hn.
  - simp bind_port. destruct (decide (attempt ≤ MAX_RETRIES)); [lia|done].
  - simp bind_port. destruct (decide (attempt ≤ MAX_RETRIES)); [|lia]. simpl.
    rewrite <- Hagree by lia.
    destruct (serve attempt); [done|].
    destruct (_ && _); [|done]. f_equal. apply IH; [|lia].
    intros k Hk. apply Hagree. lia.
Qed.

(** X16.  The start asks for the port at most five times: what the call
    would give at a sixth attempt or later has no effect on the
    outcome nor on the sleeps. *)
Theorem start_asks_at_most_five_times server
    (serve serve' : nat → bound server) isRemote configuredPort :
  (∀ attempt, 1 ≤ attempt ≤ MAX_RETRIES → serve attempt = serve' attempt) →
  Startup.start server serve isRemote configuredPort
  = Startup.start server serve' isRemote configuredPort.
Proof. apply bind_port_agree. Qed.

Lemma start_asks_at_most_five_times_witness :
  Startup.start nat
    (λ attempt, if (attempt <? 6)%nat then BindError "EADDRINUSE"
                else Listening attempt) true 19432%N
  = Startup.start nat (λ _, BindError "EADDRINUSE") true 19432%N.
Proof.
  apply (start_asks_at_most_five_times nat
           (λ attempt, if (attempt <? 6)%nat then BindError "EADDRINUSE"
                       else Listening attempt)
           (λ _, BindError "EADDRINUSE") true 19432%N).
  intros attempt [_ Hle]. unfold MAX_RETRIES in Hle.
  destruct (Nat.ltb_spec attempt 6); [done|lia].
Defined.

Lemma start_ends_at_first_decisive_attempt_witness :
  let serve := λ attempt,
    if (attempt <? 3)%nat
    then BindError "listen EADDRINUSE: address already in use"
    else Listening attempt in
  Startup.start nat serve true 19432%N
  = {| outcome := match serve 3 with
                  | Listening s => Ok s
                  | BindError message => Throw message
                  end;
       sleeps := replicate (3 - 1) RETRY_DELAY_MS |}.
Proof.
  intros serve.
  apply (start_ends_at_first_decisive_attempt nat serve true 19432%N 3).
  - unfold MAX_RETRIES. lia.
  - intros attempt Hattempt. eexists. split.
    + unfold serve. destruct (Nat.ltb_spec attempt 3); [done|lia].
    + reflexivity.
  - intros (message & Hs & _). discriminate Hs.
Defined.

Lemma start_gives_up_after_five_attempts_witness :
  Startup.start nat (λ _, BindError "listen EADDRINUSE: address already in use")
    false 19432%N
  = {| outcome := Throw "Port 19432 in use after 5 retries";
       sleeps := [500; 500; 500; 500] |}.
Proof.
  apply (start_gives_up_after_five_attempts nat
           (λ _, BindError "listen EADDRINUSE: address already in use")
           false 19432%N).
  intros attempt _. by eexists.
Defined.

End StartupFacts.

(** ** The first heading and the slug made of it *)

Module HeadingFacts.
Import StringFacts Headings.

Lemma drop_while_id f s : drop_while f (drop_while f s) = drop_while f s.
Proof.
  induction s as [|a s IH]; [done|]. simpl.
  destruct (f a) eqn:E; [done|]. simpl. by rewrite E.
Qed.

Lemma drop_while_end_id f s :
  drop_while_end f (drop_while_end f s) = drop_while_end f s.
Proof.
  induction s as [|a s IH]; [done|]. cbn [drop_while_end].
  destruct (drop_while_end f s) as [|b kept] eqn:E.
  - destruct (f a) eqn:Ea; [done|]. simpl. by rewrite Ea.
  - cbn [drop_while_end]. cbn [drop_while_end] in IH. by rewrite IH.
Qed.

Lemma drop_while_length f s :
  String.length (drop_while f s) ≤ String.length s.
Proof.
  induction s as [|a s IH]; simpl; [done|]. destruct (f a); simpl; lia.
Qed.

Lemma drop_while_end_start f s :
  drop_while f s = s → drop_while f (drop_while_end f s) = drop_while_end f s.
Proof.
  destruct s as [|a s]; [done|]. cbn [drop_while drop_while_end].
  destruct (f a) eqn:Ea.
  - intros H. apply (f_equal String.length) in H.
    pose proof (drop_while_length f s). simpl in H. lia.
  - intros _. destruct (drop_while_end f s); simpl; by rewrite Ea.
Qed.

Lemma heading_trim_id s : trim (trim s) = trim s.
Proof.
  unfold trim. rewrite drop_while_end_start by apply drop_while_id.
  apply drop_while_end_id.
Qed.

Lemma drop_while_keeps f s c :
  Js.includes_char s c = false → Js.includes_char (drop_while f s) c = false.
Proof.
  induction s as [|a s IH]; [done|]. simpl.
  destruct (Ascii.eqb a c) eqn:E; [done|]. intros H.
  destruct (f a); [auto|]. simpl. by rewrite E.
Qed.

Lemma drop_while_end_keeps f s c :
  Js.includes_char s c = false →
  Js.includes_char (drop_while_end f s) c = false.
Proof.
  induction s as [|a s IH]; [done|]. cbn [Js.includes_char drop_while_end].
  destruct (Ascii.eqb a c) eqn:E; [done|]. intros H. specialize (IH H).
  destruct (drop_while_end f s).
  - destruct (f a); [done|]. simpl. by rewrite E.
  - cbn [Js.includes_char]. by rewrite E.
Qed.

Lemma take_while_holds f s c :
  f c = false → Js.includes_char (take_while f s) c = false.
Proof.
  intros Hc. induction s as [|a s IH]; [done|]. simpl.
  destruct (f a) eqn:Ea; [|done]. simpl.
  destruct (Ascii.eqb_spec a c) as [->|]; [congruence|done].
Qed.

Lemma last_on_line_not_terminator run a :
  last_on_line run = Some a → is_line_terminator a = false.
Proof.
  induction run as [|b run IH]; [done|]. simpl.
  destruct (last_on_line run); [by intros [= <-]; apply IH|].
  destruct (is_line_terminator b) eqn:E; [done|]. by intros [= <-].
Qed.

Lemma heading_here_on_one_line s capture c :
  heading_here s = Some capture → is_line_terminator c = true →
  Js.includes_char capture c = false.
Proof.
  unfold heading_here. intros H Hc.
  destruct s as [|a rest]; [done|].
  destruct (Ascii.eqb_spec a "#") as [->|Hne].
  2:{ by destruct a as [[] [] [] [] [] [] [] []]. }
  destruct (take_while is_space rest) as [|w run]; [done|].
  destruct (drop_while is_space rest) as [|b after].
  - destruct (last_on_line run) as [x|] eqn:Hx; [|done].
    injection H as <-. apply last_on_line_not_terminator in Hx.
    simpl. destruct (Ascii.eqb_spec x c) as [->|]; [congruence|done].
  - injection H as <-.
    apply (take_while_holds (λ a, negb (is_line_terminator a))
             (String b after)).
    by rewrite Hc.
Qed.

Lemma search_on_one_line line_start s capture c :
  search line_start s = Some capture → is_line_terminator c = true →
  Js.includes_char capture c = false.
Proof.
  revert line_start. induction s as [|a s IH]; intros line_start.
  - cbn [search]. destruct line_start; [|done].
    destruct (heading_here "") eqn:E; [|done].
    intros [= <-]. by eapply heading_here_on_one_line.
  - cbn [search].
    destruct (if line_start then heading_here (String a s) else None)
      as [found|] eqn:E.
    + intros [= <-]. destruct line_start; [|done].
      by eapply heading_here_on_one_line.
    + apply IH.
Qed.

Lemma heading_here_needs_hash s :
  Js.includes_char s "#" = false → heading_here s = None.
Proof.
  destruct s as [|a rest]; [done|]. simpl.
  destruct (Ascii.eqb_spec a "#") as [->|Hne]; [done|]. intros _.
  by destruct a as [[] [] [] [] [] [] [] []].
Qed.

Lemma search_needs_hash line_start s :
  Js.includes_char s "#" = false → search line_start s = None.
Proof.
  revert line_start. induction s as [|a s IH]; intros line_start Hs.
  - cbn [search]. by destruct line_start.
  - cbn [search]. rewrite heading_here_needs_hash by done.
    assert ((if line_start then None else None) = @None string) as ->
      by by destruct line_start.
    apply IH. simpl in Hs. by destruct (Ascii.eqb a "#").
Qed.

(** X17.  The heading found is one trimmed line: it holds no line terminator
    and neither starts nor ends with white space. *)
Theorem extractFirstHeading_trimmed_line markdown heading :
  extractFirstHeading markdown = Some heading →
  trim heading = heading
  ∧ ∀ c, is_line_terminator c = true → Js.includes_char heading c = false.
Proof.
  unfold extractFirstHeading.
  destruct (search true markdown) as [capture|] eqn:Hs; [|done].
  intros [= <-]. split; [apply heading_trim_id|]. intros c Hc.
  unfold trim. apply drop_while_end_keeps, drop_while_keeps.
  by eapply search_on_one_line.
Qed.

Lemma take_while_app f title rest :
  take_while f title = title → take_while f rest = "" →
  take_while f (title +:+ rest) = title.
Proof.
  intros Htitle Hrest. induction title as [|a title IH]; [done|].
  rewrite sapp_cons. simpl in *. destruct (f a); [|done].
  injection Htitle as Htitle. by rewrite IH.
Qed.

Lemma search_finds_title title rest :
  title ≠ "" → drop_while is_space title = title →
  take_while (λ a, negb (is_line_terminator a)) title = title →
  take_while (λ a, negb (is_line_terminator a)) rest = "" →
  search true ("# " +:+ title +:+ rest) = Some title.
Proof.
  intros Hne Hstart Hline Hrest.
  destruct title as [|b title]; [done|].
  assert (is_space b = false) as Hb.
  { simpl in Hstart. destruct (is_space b) eqn:E; [|done].
    apply (f_equal String.length) in Hstart.
    pose proof (drop_while_length is_space title). simpl in Hstart. lia. }
  change ("# " +:+ String b title +:+ rest)
    with (String "#" (String " " (String b (title +:+ rest)))).
  cbn [search heading_here take_while drop_while].
  assert (is_space " " = true) as -> by done. rewrite Hb.
  f_equal.
  exact (take_while_app (λ a, negb (is_line_terminator a))
           (String b title) rest Hline Hrest).
Qed.

Section Slugs.

Variable today : string.
Variable sanitizeTag : string → string.

Local Abbreviation generateSlug :=
  (Storage.generateSlug today extractFirstHeading sanitizeTag).

(** X18.  The slug of a plan that opens with a heading line is the day and
    the sanitized, trimmed title of that line, or the day and [plan]
    when sanitizing leaves nothing. *)
Theorem generateSlug_of_titled_plan title rest :
  title ≠ "" → drop_while is_space title = title →
  take_while (λ a, negb (is_line_terminator a)) title = title →
  take_while (λ a, negb (is_line_terminator a)) rest = "" →
  extractFirstHeading ("# " +:+ title +:+ rest) = Some (trim title)
  ∧ generateSlug ("# " +:+ title +:+ rest)
    = if bool_decide (sanitizeTag (trim title) = "") then today +:+ "-plan"
      else today +:+ "-" +:+ sanitizeTag (trim title).
Proof.
  intros Hne Hstart Hline Hrest.
  assert (extractFirstHeading ("# " +:+ title +:+ rest) = Some (trim title))
    as Hheading.
  { unfold extractFirstHeading. by rewrite search_finds_title. }
  split; [done|]. unfold Storage.generateSlug. rewrite Hheading.
  assert (trim title ≠ "") as Htrim.
  { unfold trim. rewrite Hstart. destruct title as [|b title]; [done|].
    assert (is_space b = false) as Hb.
    { simpl in Hstart. destruct (is_space b) eqn:E; [|done].
      apply (f_equal String.length) in Hstart.
      pose proof (drop_while_length is_space title). simpl in Hstart. lia. }
    cbn [drop_while_end]. rewrite Hb.
    by destruct (drop_while_end is_space title). }
  cbn [Storage.truthy]. rewrite (bool_decide_eq_false_2 _ Htrim).
  cbn [fmap option_fmap option_map Storage.truthy].
  by case_bool_decide.
Qed.

(** X19.  A plan without hash mark has no heading, and its slug is the day
    and [plan]. *)
Theorem generateSlug_without_heading plan :
  Js.includes_char plan "#" = false →
  extractFirstHeading plan = None
  ∧ generateSlug plan = today +:+ "-plan".
Proof.
  intros Hhash. unfold Storage.generateSlug, extractFirstHeading.
  by rewrite search_needs_hash.
Qed.

End Slugs.

Lemma generateSlug_of_titled_plan_witness :
  extractFirstHeading ("# " +:+ "Release plan  " +:+ (Js.nl +:+ "Body"))
  = Some (trim "Release plan  ")
  ∧ Storage.generateSlug "2026-01-01" extractFirstHeading (λ _, "release-plan")
      ("# " +:+ "Release plan  " +:+ (Js.nl +:+ "Body"))
    = if bool_decide ((λ _ : string, "release-plan") (trim "Release plan  ") = "")
      then "2026-01-01" +:+ "-plan"
      else "2026-01-01" +:+ "-" +:+ (λ _, "release-plan") (trim "Release plan  ").
Proof.
  apply (generateSlug_of_titled_plan "2026-01-01" (λ _, "release-plan")
           "Release plan  " (Js.nl +:+ "Body")).
  - discriminate.
  - reflexivity.
  - reflexivity.
  - reflexivity.
Defined.

Lemma extractFirstHeading_trimmed_line_witness :
  trim "Title" = "Title"
  ∧ ∀ c, is_line_terminator c = true → Js.includes_char "Title" c = false.
Proof.
  exact (extractFirstHeading_trimmed_line
           ("intro" +:+ Js.nl +:+ "#  Title " +:+ Js.nl +:+ "rest") "Title"
           eq_refl).
Defined.

Lemma generateSlug_without_heading_witness :
  extractFirstHeading "Notes without a title" = None
  ∧ Storage.generateSlug "2026-01-01" extractFirstHeading (λ tag, tag)
      "Notes without a title"
    = "2026-01-01" +:+ "-plan".
Proof.
  exact (generateSlug_without_heading "2026-01-01" (λ tag, tag)
           "Notes without a title" eq_refl).
Defined.

End HeadingFacts.

(** ** The atomic writer of several files *)

Module BatchFacts.
Import AtomicBatch.

Section Writer.

Variable error : Type.
Variable cwd : string.
Variable enoent : string → error.
Variable undefined_path : error.
Variable faults : Faults error.
Variable uuid : nat → string.

Local Abbreviation key := (key cwd).
Local Abbreviation tempPath := (tempPath uuid).
Local Abbreviation temps_from := (temps_from uuid).
Local Abbreviation write_temps := (write_temps error cwd faults uuid).
Local Abbreviation rename_temps :=
  (rename_temps error cwd enoent undefined_path faults).
Local Abbreviation clean_up := (clean_up error cwd enoent faults).
Local Abbreviation staged := (staged cwd uuid).
Local Abbreviation committed := (committed cwd uuid).
Local Abbreviation swept := (swept error cwd faults).
Local Abbreviation first_write_fault := (first_write_fault error faults).
Local Abbreviation first_rename_fault := (first_rename_fault error faults).
Local Abbreviation atomicWriteMultiple :=
  (atomicWriteMultiple error cwd enoent undefined_path faults uuid).
(** The places a batch works on: its temporary files and its targets. *)
Local Abbreviation temp_keys i writes := (key <$> temps_from i writes).
Local Abbreviation target_keys writes := (key <$> writes.*1).

Lemma temp_key_listed i writes j t c :
  writes !! j = Some (t, c) →
  key (tempPath (i + j) t) ∈ temp_keys i writes.
Proof.
  revert i j. induction writes as [|[t0 c0] rest IH]; intros i j Hj; [done|].
  cbn. destruct j as [|j]; simplify_eq/=.
  - rewrite Nat.add_0_r. apply list_elem_of_here.
  - apply list_elem_of_further. replace (i + S j) with (S i + j) by lia.
    by apply IH.
Qed.

Lemma target_key_listed (writes : list (string * string)) j t c :
  writes !! j = Some (t, c) → key t ∈ target_keys writes.
Proof.
  intros Hj. apply list_elem_of_fmap. exists t. split; [done|].
  apply list_elem_of_fmap. exists (t, c). split; [done|].
  by eapply list_elem_of_lookup_2.
Qed.

Lemma temps_from_lookup i writes j t c :
  writes !! j = Some (t, c) →
  temps_from i writes !! j = Some (tempPath (i + j) t).
Proof.
  revert i j. induction writes as [|[t0 c0] rest IH]; intros i j Hj; [done|].
  cbn. destruct j as [|j]; simplify_eq/=.
  - by rewrite Nat.add_0_r.
  - replace (i + S j) with (S i + j) by lia. by apply IH.
Qed.

Lemma temps_from_take i n writes :
  temps_from i (take n writes) = take n (temps_from i writes).
Proof.
  revert i n. induction writes as [|[t c] rest IH]; intros i [|n]; cbn;
    [done..|]. by rewrite IH.
Qed.

Lemma batch_keys_tail i t c rest :
  NoDup (temp_keys i ((t, c) :: rest) ++ target_keys ((t, c) :: rest)) →
  NoDup (temp_keys (S i) rest ++ target_keys rest)
  ∧ (key (tempPath i t) ∉ (temp_keys (S i) rest ++ target_keys rest))
  ∧ (key t ∉ (temp_keys (S i) rest ++ target_keys rest))
  ∧ key (tempPath i t) ≠ key t.
Proof.
  cbn. intros Hnd. apply NoDup_cons in Hnd as [Htemp Hnd].
  rewrite <- Permutation_middle in Hnd, Htemp.
  apply NoDup_cons in Hnd as [Htarget Hnd].
  apply not_elem_of_cons in Htemp as [Hne Htemp]. done.
Qed.

(** *** Phase 1 *)

Lemma staged_frame i writes fs q :
  q ∉ temp_keys i writes → staged i writes fs !! q = fs !! q.
Proof.
  revert i fs. induction writes as [|[t c] rest IH]; intros i fs Hq; [done|].
  cbn in Hq. apply not_elem_of_cons in Hq as [Hne Hq].
  cbn [AtomicBatch.staged]. rewrite IH by done. by rewrite lookup_insert_ne.
Qed.

Lemma staged_lookup i writes fs j t c :
  NoDup (temp_keys i writes) → writes !! j = Some (t, c) →
  staged i writes fs !! key (tempPath (i + j) t) = Some c.
Proof.
  revert i fs j. induction writes as [|[t0 c0] rest IH]; intros i fs j Hnd Hj;
    [done|].
  cbn in Hnd. apply NoDup_cons in Hnd as [Hfirst Hnd].
  cbn [AtomicBatch.staged]. destruct j as [|j]; simplify_eq/=.
  - rewrite Nat.add_0_r, staged_frame by done. by rewrite lookup_insert_eq.
  - replace (i + S j) with (S i + j) by lia. by apply IH.
Qed.

Lemma write_temps_ok i writes st :
  first_write_fault i writes = None →
  write_temps i writes st
  = ({| files := staged i writes (files st);
        tempFiles := tempFiles st ++ temps_from i writes;
        results := results st |}, Atomic.Returned ()).
Proof.
  revert i st. induction writes as [|[t c] rest IH]; intros i st Hok.
  - cbn. rewrite app_nil_r. by destruct st.
  - cbn [AtomicBatch.first_write_fault] in Hok.
    destruct (mkdir_fault faults i) eqn:Hmk; [done|].
    destruct (write_fault faults i) as [[]|] eqn:Hwr; [done|].
    destruct (first_write_fault (S i) rest) as [[[]]|] eqn:Hrest; [done|].
    cbn [AtomicBatch.write_temps AtomicBatch.staged AtomicBatch.temps_from].
    unfold bind at 1. unfold mkdirSync. rewrite Hmk. unfold ret at 1.
    unfold bind at 1. unfold Bun_write. rewrite Hwr.
    unfold bind at 1. unfold push_temp.
    rewrite IH by done. cbn. by rewrite <- app_assoc.
Qed.

Lemma write_temps_fail i writes st n e remains :
  first_write_fault i writes = Some (n, e, remains) →
  ∃ t c, writes !! n = Some (t, c)
  ∧ write_temps i writes st
    = ({| files :=
            match remains with
            | Some part =>
                <[key (tempPath (i + n) t) := part]>
                  (staged i (take n writes) (files st))
            | None => staged i (take n writes) (files st)
            end;
          tempFiles := tempFiles st ++ temps_from i (take n writes);
          results := results st |}, Atomic.Thrown e).
Proof.
  revert i st n. induction writes as [|[t c] rest IH]; intros i st n Hfail;
    [done|].
  cbn [AtomicBatch.first_write_fault] in Hfail.
  cbn [AtomicBatch.write_temps].
  unfold bind at 1. unfold mkdirSync.
  destruct (mkdir_fault faults i) eqn:Hmk.
  { injection Hfail as <- <- <-. exists t, c. split; [done|]. cbn.
    rewrite app_nil_r. by destruct st. }
  unfold ret at 1. unfold bind at 1. unfold Bun_write.
  destruct (write_fault faults i) as [[e' remains']|] eqn:Hwr.
  { injection Hfail as <- <- <-. exists t, c. split; [done|].
    rewrite Nat.add_0_r.
    destruct remains' as [part|]; cbn; rewrite app_nil_r; [done|].
    by destruct st. }
  destruct (first_write_fault (S i) rest) as [[[n' e'] remains']|] eqn:Hrest;
    [|done].
  injection Hfail as <- <- <-. destruct (IH (S i)
    {| files := <[key (tempPath i t) := c]> (files st);
       tempFiles := tempFiles st ++ [tempPath i t];
       results := results st |} n' Hrest) as (t' & c' & Hn & Hrun).
  exists t', c'. split; [done|].
  unfold bind at 1. unfold push_temp. cbn [with_files files tempFiles results].
  unfold AtomicBatch.tempPath in *. rewrite Hrun.
  cbn. rewrite <- app_assoc. by replace (i + S n') with (S (i + n')) by lia.
Qed.

(** *** Phase 2 *)

Lemma committed_frame i writes fs q :
  q ∉ (temp_keys i writes ++ target_keys writes) →
  committed i writes fs !! q = fs !! q.
Proof.
  revert i fs. induction writes as [|[t c] rest IH]; intros i fs Hq; [done|].
  cbn in Hq. apply not_elem_of_cons in Hq as [Hne Hq].
  rewrite <- Permutation_middle in Hq.
  apply not_elem_of_cons in Hq as [Hne' Hq].
  cbn [AtomicBatch.committed]. rewrite IH by done.
  rewrite lookup_insert_ne by done. by rewrite lookup_delete_ne.
Qed.

Lemma committed_lookup i writes fs j t c :
  NoDup (temp_keys i writes ++ target_keys writes) →
  writes !! j = Some (t, c) →
  committed i writes fs !! key t = Some c
  ∧ committed i writes fs !! key (tempPath (i + j) t) = None.
Proof.
  revert i fs j. induction writes as [|[t0 c0] rest IH]; intros i fs j Hnd Hj;
    [done|].
  apply batch_keys_tail in Hnd as (Hnd & Htemp & Htarget & Hne).
  cbn [AtomicBatch.committed]. destruct j as [|j]; simplify_eq/=.
  - rewrite Nat.add_0_r, !committed_frame by done.
    rewrite lookup_insert_eq, lookup_insert_ne by done.
    by rewrite lookup_delete_eq.
  - replace (i + S j) with (S i + j) by lia. by apply IH.
Qed.

Lemma rename_temps_run i writes st n :
  (∀ j t c, writes !! j = Some (t, c) →
     tempFiles st !! (i + j) = Some (tempPath (i + j) t)) →
  (∀ j t c, writes !! j = Some (t, c) →
     files st !! key (tempPath (i + j) t) = Some c) →
  NoDup (temp_keys i writes ++ target_keys writes) →
  (first_rename_fault i writes = None →
   rename_temps i writes st
   = ({| files := committed i writes (files st);
         tempFiles := tempFiles st;
         results := results st ++ writes.*1 |}, Atomic.Returned ()))
  ∧ (∀ e, first_rename_fault i writes = Some (n, e) →
     rename_temps i writes st
     = ({| files := committed i (take n writes) (files st);
           tempFiles := tempFiles st;
           results := results st ++ (take n writes).*1 |}, Atomic.Thrown e)).
Proof.
  revert i st n. induction writes as [|[t c] rest IH];
    intros i st n Htemps Hfiles Hnd.
  { split; [|done]. intros _. cbn. rewrite app_nil_r. by destruct st. }
  pose proof (Htemps 0 t c eq_refl) as Htemp.
  pose proof (Hfiles 0 t c eq_refl) as Hfile.
  rewrite Nat.add_0_r in Htemp, Hfile.
  apply batch_keys_tail in Hnd as (Hnd & Hfresh & Htarget & Hne).
  set (st' := {| files := <[key t := c]> (delete (key (tempPath i t)) (files st));
                 tempFiles := tempFiles st;
                 results := results st ++ [t] |}).
  assert (rename_temps i ((t, c) :: rest) st
          = match rename_fault faults i with
            | Some e0 => (st, Atomic.Thrown e0)
            | None => rename_temps (S i) rest st'
            end) as ->.
  { cbn [AtomicBatch.rename_temps].
    unfold bind at 1. unfold temp_at. rewrite Htemp.
    unfold bind at 1. unfold renameSync.
    destruct (rename_fault faults i); [done|].
    rewrite Hfile. unfold bind at 1. by unfold push_result. }
  cbn [AtomicBatch.first_rename_fault].
  destruct (rename_fault faults i) as [e0|] eqn:Hrn.
  { split; [done|]. intros e [= <- <-]. cbn. rewrite app_nil_r.
    by destruct st. }
  destruct (IH (S i) st' (pred n)) as [Hok Hfail]; [| |done|].
  { intros j t' c' Hj. replace (S i + j) with (i + S j) by lia.
    by apply (Htemps (S j) t' c'). }
  { intros j t' c' Hj. subst st'. cbn [files].
    assert (key (tempPath (S i + j) t') ∈ temp_keys (S i) rest) as Hin
      by by eapply temp_key_listed.
    rewrite lookup_insert_ne, lookup_delete_ne.
    - replace (S i + j) with (i + S j) by lia. by apply (Hfiles (S j) t' c').
    - intros Heq. apply Hfresh. rewrite Heq. apply elem_of_app. by left.
    - intros Heq. apply Htarget. rewrite Heq. apply elem_of_app. by left. }
  split.
  - destruct (first_rename_fault (S i) rest) as [[]|] eqn:Hrest; [done|].
    intros _. rewrite Hok by done. subst st'. cbn.
    by rewrite <- app_assoc.
  - intros e. destruct (first_rename_fault (S i) rest) as [[n' e']|] eqn:Hrest;
      [|done].
    intros [= <- <-]. cbn [pred] in Hfail. rewrite (Hfail e') by done.
    subst st'. cbn. by rewrite <- app_assoc.
Qed.

(** *** The clean-up *)

Lemma swept_frame j temps fs q :
  q ∉ key <$> temps → swept j temps fs !! q = fs !! q.
Proof.
  revert j fs. induction temps as [|p rest IH]; intros j fs Hq; [done|].
  cbn in Hq. apply not_elem_of_cons in Hq as [Hne Hq].
  cbn [AtomicBatch.swept]. rewrite IH by done.
  destruct (fs !! key p), (unlink_fault faults j); try done.
  by rewrite lookup_delete_ne.
Qed.

Lemma swept_none j temps fs q :
  fs !! q = None → swept j temps fs !! q = None.
Proof.
  revert j fs. induction temps as [|p rest IH]; intros j fs Hq; [done|].
  cbn [AtomicBatch.swept]. apply IH.
  destruct (fs !! key p), (unlink_fault faults j); try done.
  rewrite lookup_delete_None. by right.
Qed.

Lemma swept_removes j temps fs k p :
  temps !! k = Some p → unlink_fault faults (j + k) = None →
  swept j temps fs !! key p = None.
Proof.
  revert j fs k. induction temps as [|p0 rest IH]; intros j fs k Hk Hul;
    [done|].
  cbn [AtomicBatch.swept]. destruct k as [|k]; simplify_eq/=.
  - rewrite Nat.add_0_r in Hul. rewrite Hul. apply swept_none.
    destruct (fs !! key p) eqn:Hp; [|done]. by rewrite lookup_delete_eq.
  - apply (IH (S j) _ k); [done|]. by replace (S j + k) with (j + S k) by lia.
Qed.

Lemma clean_up_ok j temps st :
  clean_up j temps st
  = (with_files st (swept j temps (files st)), Atomic.Returned ()).
Proof.
  revert j st. induction temps as [|p rest IH]; intros j st.
  - cbn. by destruct st.
  - cbn [AtomicBatch.clean_up AtomicBatch.swept].
    unfold bind at 1. unfold try_catch, bind, existsSync, unlinkSync, ret.
    destruct (files st !! key p) as [old|] eqn:Hp.
    + rewrite bool_decide_eq_true_2 by done. rewrite Hp.
      destruct (unlink_fault faults j); rewrite IH; [by destruct st|done].
    + rewrite bool_decide_eq_false_2 by (by intros [? ?]).
      rewrite IH. by destruct st.
Qed.

(** *** The whole call *)

Lemma taken_keys_listed i n writes q :
  q ∈ temp_keys i (take n writes) ++ target_keys (take n writes) →
  q ∈ temp_keys i writes ++ target_keys writes.
Proof.
  rewrite temps_from_take, !fmap_take. rewrite !elem_of_app.
  intros [Hq|Hq]; [left|right]; by eapply subseteq_take.
Qed.

Lemma taken_keys_NoDup i n writes :
  NoDup (temp_keys i writes ++ target_keys writes) →
  NoDup (temp_keys i (take n writes) ++ target_keys (take n writes)).
Proof.
  intros Hnd. eapply sublist_NoDup; [done|].
  rewrite temps_from_take, !fmap_take.
  apply sublist_app; apply sublist_take.
Qed.

Lemma run_all_staged writes fs :
  first_write_fault 0 writes = None →
  NoDup (temp_keys 0 writes ++ target_keys writes) →
  let st := {| files := staged 0 writes fs;
               tempFiles := temps_from 0 writes; results := [] |} in
  write_temps 0 writes {| files := fs; tempFiles := []; results := [] |}
  = (st, Atomic.Returned ())
  ∧ (∀ j t c, writes !! j = Some (t, c) →
       tempFiles st !! (0 + j) = Some (tempPath (0 + j) t))
  ∧ (∀ j t c, writes !! j = Some (t, c) →
       files st !! key (tempPath (0 + j) t) = Some c).
Proof.
  intros Hwrite Hnd. split_and!.
  - by rewrite write_temps_ok.
  - intros j t c Hj. by eapply temps_from_lookup.
  - intros j t c Hj. apply NoDup_app in Hnd as (Hnd & _ & _).
    by apply staged_lookup.
Qed.

(** X24.  When the file system refuses nothing and the targets and temporary
    files of the batch are different places, the call returns the
    targets in the order of the batch; each target holds its content,
    no temporary file is left, and no other file has changed. *)
Theorem atomicWriteMultiple_commits_all writes fs :
  first_write_fault 0 writes = None →
  first_rename_fault 0 writes = None →
  NoDup (temp_keys 0 writes ++ target_keys writes) →
  ∃ fs', atomicWriteMultiple writes fs = (fs', Atomic.Returned writes.*1)
  ∧ (∀ j t c, writes !! j = Some (t, c) →
       fs' !! key t = Some c ∧ fs' !! key (tempPath j t) = None)
  ∧ (∀ q, q ∉ (temp_keys 0 writes ++ target_keys writes) →
       fs' !! q = fs !! q).
Proof.
  intros Hwrite Hrename Hnd.
  destruct (run_all_staged writes fs Hwrite Hnd) as (Hrun & Htemps & Hfiles).
  destruct (rename_temps_run 0 writes _ 0 Htemps Hfiles Hnd) as [Hok _].
  exists (committed 0 writes (staged 0 writes fs)). split_and!.
  - unfold AtomicBatch.atomicWriteMultiple, run, try_catch.
    unfold bind at 1. rewrite Hrun.
    unfold bind at 1. by rewrite Hok.
  - intros j t c Hj. by apply (committed_lookup 0).
  - intros q Hq. rewrite committed_frame by done. apply staged_frame.
    intros Hin. apply Hq, elem_of_app. by left.
Qed.

(** X25.  When a [mkdirSync] or a write of phase 1 is refused, the call
    throws that error, and no target has been renamed to: every file
    but the temporary ones is as it was.  The temporary files written
    before go, unless their [unlinkSync] is refused; what the refused
    write left at its own temporary path stays, as that path is not
    among those the clean-up goes through. *)
Theorem atomicWriteMultiple_failed_write writes fs n e remains :
  first_write_fault 0 writes = Some (n, e, remains) →
  ∃ fs', atomicWriteMultiple writes fs = (fs', Atomic.Thrown e)
  ∧ (∀ q, q ∉ temp_keys 0 writes → fs' !! q = fs !! q)
  ∧ (∀ j t c, j < n → writes !! j = Some (t, c) →
       unlink_fault faults j = None → fs' !! key (tempPath j t) = None)
  ∧ (∀ t c part, writes !! n = Some (t, c) → remains = Some part →
       key (tempPath n t) ∉ temp_keys 0 (take n writes) →
       fs' !! key (tempPath n t) = Some part).
Proof.
  intros Hfail.
  destruct (write_temps_fail 0 writes
              {| files := fs; tempFiles := []; results := [] |} n e remains
              Hfail) as (tn & cn & Hn & Hrun).
  cbn [files tempFiles results app] in Hrun.
  eexists. split_and!.
  - unfold AtomicBatch.atomicWriteMultiple, run, try_catch.
    unfold bind at 1. rewrite Hrun.
    unfold bind at 1. rewrite clean_up_ok. reflexivity.
  - intros q Hq. cbn [files tempFiles with_files].
    rewrite swept_frame.
    2:{ intros Hin. apply Hq. rewrite temps_from_take, fmap_take in Hin.
        by eapply subseteq_take. }
    assert (staged 0 (take n writes) fs !! q = fs !! q) as Hstaged.
    { apply staged_frame. intros Hin. apply Hq.
      rewrite temps_from_take, fmap_take in Hin. by eapply subseteq_take. }
    destruct remains as [part|]; [|done].
    rewrite lookup_insert_ne; [done|]. intros <-. apply Hq.
    by apply (temp_key_listed 0 writes n tn cn).
  - intros j t c Hlt Hj Hul. cbn [files tempFiles with_files].
    apply (swept_removes 0 _ _ j); [|done].
    apply (temps_from_lookup 0 (take n writes) j t c).
    by apply lookup_take_Some.
  - intros t c part Ht -> Hfresh. rewrite Hn in Ht. injection Ht as <- <-.
    cbn [files tempFiles with_files]. rewrite swept_frame by done.
    apply lookup_insert_eq.
Qed.

(** X26.  When phase 1 goes through and a rename of phase 2 is refused, the
    call throws that error with the batch half done: the targets
    before the refused entry hold their new content, those from it on
    are as they were, and no other file has changed.  The temporary
    files of the entries not renamed go, unless their [unlinkSync] is
    refused. *)
Theorem atomicWriteMultiple_failed_rename writes fs n e :
  first_write_fault 0 writes = None →
  first_rename_fault 0 writes = Some (n, e) →
  NoDup (temp_keys 0 writes ++ target_keys writes) →
  ∃ fs', atomicWriteMultiple writes fs = (fs', Atomic.Thrown e)
  ∧ (∀ j t c, writes !! j = Some (t, c) →
       (j < n → fs' !! key t = Some c ∧ fs' !! key (tempPath j t) = None)
       ∧ (n ≤ j →
          fs' !! key t = fs !! key t
          ∧ (unlink_fault faults j = None →
             fs' !! key (tempPath j t) = None)))
  ∧ (∀ q, q ∉ (temp_keys 0 writes ++ target_keys writes) →
       fs' !! q = fs !! q).
Proof.
  intros Hwrite Hrename Hnd.
  destruct (run_all_staged writes fs Hwrite Hnd) as (Hrun & Htemps & Hfiles).
  destruct (rename_temps_run 0 writes _ n Htemps Hfiles Hnd) as [_ Hfail].
  specialize (Hfail e Hrename).
  pose proof Hnd as Hparts. apply NoDup_app in Hparts as (_ & Hapart & Htargets).
  exists (swept 0 (temps_from 0 writes)
            (committed 0 (take n writes) (staged 0 writes fs))).
  split_and!.
  - unfold AtomicBatch.atomicWriteMultiple, run, try_catch.
    unfold bind at 1. rewrite Hrun.
    unfold bind at 1. rewrite Hfail.
    unfold bind at 1. by rewrite clean_up_ok.
  - intros j t c Hj.
    assert (key t ∉ temp_keys 0 writes) as Hnot_temp.
    { intros Hin. apply (Hapart _ Hin). by eapply target_key_listed. }
    split.
    + intros Hlt.
      destruct (committed_lookup 0 (take n writes) (staged 0 writes fs) j t c)
        as [Htarget Htemp];
        [by apply taken_keys_NoDup|by apply lookup_take_Some|].
      split; [by rewrite swept_frame|by apply swept_none].
    + intros Hge. split.
      * rewrite swept_frame by done. rewrite committed_frame.
        { by apply staged_frame. }
        rewrite elem_of_app. intros [Hin|Hin].
        { apply Hnot_temp. rewrite temps_from_take, fmap_take in Hin.
          by eapply subseteq_take. }
        rewrite !fmap_take in Hin. apply elem_of_take in Hin as (k & Hk & Hlt).
        assert (target_keys writes !! j = Some (key t)) as Hjk
          by by rewrite !list_lookup_fmap, Hj.
        pose proof (NoDup_lookup _ _ _ _ Htargets Hk Hjk). lia.
      * intros Hul. apply (swept_removes 0 _ _ j); [|done].
        by apply (temps_from_lookup 0 writes j t c).
  - intros q Hq. rewrite swept_frame.
    2:{ intros Hin. apply Hq, elem_of_app. by left. }
    rewrite committed_frame.
    2:{ intros Hin. by apply Hq, (taken_keys_listed 0 n). }
    apply staged_frame. intros Hin. apply Hq, elem_of_app. by left.
Qed.

End Writer.
Lemma atomicWriteMultiple_commits_all_witness :
  ∃ fs',
    atomicWriteMultiple string "/" (λ p, "ENOENT: " +:+ p) "undefined"
      Examples.batch_unrefused Examples.batch_uuid Examples.batch
      {[ "/plans/a.md" := "old" ]}
    = (fs', Atomic.Returned Examples.batch.*1)
    ∧ (∀ j t c, Examples.batch !! j = Some (t, c) →
         fs' !! key "/" t = Some c
         ∧ fs' !! key "/" (tempPath Examples.batch_uuid j t) = None)
    ∧ (∀ q, q ∉ ((key "/" <$> temps_from Examples.batch_uuid 0 Examples.batch)
                  ++ (key "/" <$> Examples.batch.*1)) →
         fs' !! q = ({[ "/plans/a.md" := "old" ]} : gmap string string) !! q).
Proof.
  apply (atomicWriteMultiple_commits_all string "/" (λ p, "ENOENT: " +:+ p)
           "undefined" Examples.batch_unrefused Examples.batch_uuid
           Examples.batch {[ "/plans/a.md" := "old" ]}).
  - reflexivity.
  - reflexivity.
  - refine (bool_decide_unpack _ _). vm_compute. exact I.
Defined.

Lemma atomicWriteMultiple_failed_write_witness :
  ∃ fs',
    atomicWriteMultiple string "/" (λ p, "ENOENT: " +:+ p) "undefined"
      Examples.second_write_refused Examples.batch_uuid Examples.batch
      {[ "/plans/a.md" := "old" ]}
    = (fs', Atomic.Thrown "ENOSPC")
    ∧ (∀ q, q ∉ (key "/" <$> temps_from Examples.batch_uuid 0 Examples.batch) →
         fs' !! q = ({[ "/plans/a.md" := "old" ]} : gmap string string) !! q)
    ∧ (∀ j t c, j < 1 → Examples.batch !! j = Some (t, c) →
         unlink_fault Examples.second_write_refused j = None →
         fs' !! key "/" (tempPath Examples.batch_uuid j t) = None)
    ∧ (∀ t c part, Examples.batch !! 1 = Some (t, c) → Some "" = Some part →
         key "/" (tempPath Examples.batch_uuid 1 t)
         ∉ (key "/" <$> temps_from Examples.batch_uuid 0 (take 1 Examples.batch)) →
         fs' !! key "/" (tempPath Examples.batch_uuid 1 t) = Some part).
Proof.
  apply (atomicWriteMultiple_failed_write string "/" (λ p, "ENOENT: " +:+ p)
           "undefined" Examples.second_write_refused Examples.batch_uuid
           Examples.batch {[ "/plans/a.md" := "old" ]} 1 "ENOSPC" (Some "")).
  reflexivity.
Defined.

Lemma atomicWriteMultiple_failed_rename_witness :
  ∃ fs',
    atomicWriteMultiple string "/" (λ p, "ENOENT: " +:+ p) "undefined"
      Examples.second_rename_refused Examples.batch_uuid Examples.batch
      {[ "/plans/a.md" := "old" ]}
    = (fs', Atomic.Thrown "EXDEV")
    ∧ (∀ j t c, Examples.batch !! j = Some (t, c) →
         (j < 1 → fs' !! key "/" t = Some c
                  ∧ fs' !! key "/" (tempPath Examples.batch_uuid j t) = None)
         ∧ (1 ≤ j →
            fs' !! key "/" t
            = ({[ "/plans/a.md" := "old" ]} : gmap string string) !! key "/" t
            ∧ (unlink_fault Examples.second_rename_refused j = None →
               fs' !! key "/" (tempPath Examples.batch_uuid j t) = None)))
    ∧ (∀ q, q ∉ ((key "/" <$> temps_from Examples.batch_uuid 0 Examples.batch)
                  ++ (key "/" <$> Examples.batch.*1)) →
         fs' !! q = ({[ "/plans/a.md" := "old" ]} : gmap string string) !! q).
Proof.
  apply (atomicWriteMultiple_failed_rename string "/" (λ p, "ENOENT: " +:+ p)
           "undefined" Examples.second_rename_refused Examples.batch_uuid
           Examples.batch {[ "/plans/a.md" := "old" ]} 1 "EXDEV").
  - reflexivity.
  - reflexivity.
  - refine (bool_decide_unpack _ _). vm_compute. exact I.
Defined.

(** The batch whose second rename is refused, run: the first plan is
    replaced, the second is missing, and no temporary file is left. *)
Example half_done_batch :
  atomicWriteMultiple string "/" (λ p, "ENOENT: " +:+ p) "undefined"
    Examples.second_rename_refused Examples.batch_uuid Examples.batch
    {[ "/plans/a.md" := "old" ]}
  = ({[ "/plans/a.md" := "A" ]}, Atomic.Thrown "EXDEV").
Proof. by vm_compute. Qed.

(** The batch whose second write is refused, run: the part the write
    left is still at its temporary path. *)
Example leftover_of_refused_write :
  atomicWriteMultiple string "/" (λ p, "ENOENT: " +:+ p) "undefined"
    Examples.second_write_refused Examples.batch_uuid Examples.batch
    {[ "/plans/a.md" := "old" ]}
  = ({[ "/plans/a.md" := "old"; "/plans/.tmp-u1" := "" ]},
     Atomic.Thrown "ENOSPC").
Proof. by vm_compute. Qed.

End BatchFacts.

(** ** What one atomic write touches *)

Module AtomicFrame.
Import Atomic.

Section Writer.

Variable error : Type.
Variable cwd : string.
Variable enoent : string → error.
Variable faults : Faults error.
Variable uuid : string.

Local Abbreviation atomicWrite := (atomicWrite error cwd enoent faults uuid).
Local Abbreviation temp := (tempPath uuid).
Local Abbreviation key := (key cwd).

(** The file table after a write that nothing refuses. *)
Lemma atomicWrite_unrefused fs targetPath content :
  first_failure error faults = None →
  atomicWrite targetPath content fs
  = (<[key targetPath := content]> (delete (key (temp targetPath)) fs),
     Returned targetPath).
Proof.
  unfold first_failure, Atomic.atomicWrite, Atomic.tempPath.
  unfold bind, try_catch, mkdirSync, Bun_write, renameSync, ret.
  destruct (mkdir_fault faults); [done|].
  destruct (write_fault faults) as [[]|]; [done|].
  intros ->. rewrite lookup_insert_eq. by rewrite delete_insert_eq.
Qed.

(** X23.  Whatever the file system refuses, a write changes no file other
    than its target and its temporary file; and when nothing is
    refused it returns the target, with no temporary file left
    beside it. *)
Theorem atomicWrite_touches_target_and_temp_only fs targetPath content :
  key (temp targetPath) ≠ key targetPath →
  (∀ q, q ≠ key targetPath → q ≠ key (temp targetPath) →
     (atomicWrite targetPath content fs).1 !! q = fs !! q)
  ∧ (first_failure error faults = None →
     (atomicWrite targetPath content fs).2 = Returned targetPath
     ∧ (atomicWrite targetPath content fs).1 !! key (temp targetPath) = None).
Proof.
  intros Hfresh. split.
  - intros q Htarget Htemp.
    unfold Atomic.atomicWrite, Atomic.tempPath in *.
    set (kt := key (Path.join [Path.dirname targetPath; ".tmp-" +:+ uuid])) in *.
    set (kg := key targetPath) in *.
    unfold bind, try_catch, mkdirSync, Bun_write, renameSync, existsSync,
      unlinkSync, ret, throw.
    fold kt kg.
    destruct faults as [mk wr rn ul];
      cbn [mkdir_fault write_fault rename_fault unlink_fault].
    destruct mk as [e|]; [done|].
    destruct wr as [[e [partial|]]|].
    + rewrite lookup_insert_eq. rewrite bool_decide_eq_true_2 by done.
      destruct ul as [e'|]; by simplify_map_eq.
    + case_bool_decide as Hpresent.
      * destruct Hpresent as [old Hold]. rewrite Hold.
        destruct ul as [e'|]; by simplify_map_eq.
      * done.
    + rewrite lookup_insert_eq.
      destruct rn as [e|].
      * rewrite lookup_insert_eq. rewrite bool_decide_eq_true_2 by done.
        destruct ul as [e'|]; by simplify_map_eq.
      * by simplify_map_eq.
  - intros Hok. rewrite atomicWrite_unrefused by done. split; [done|].
    cbn [fst]. rewrite lookup_insert_ne by done. apply lookup_delete_eq.
Qed.

End Writer.

Lemma atomicWrite_touches_target_and_temp_only_witness :
  let fs : gmap string string := {[ "/plans/plan.md" := "old" ]} in
  (∀ q, q ≠ key "/" "/plans/plan.md" →
     q ≠ key "/" (tempPath "0b6f" "/plans/plan.md") →
     (Atomic.atomicWrite string "/" (λ p, "ENOENT: " +:+ p)
        Examples.rename_refused "0b6f" "/plans/plan.md" "new" fs).1 !! q
     = fs !! q)
  ∧ (first_failure string Examples.rename_refused = None →
     (Atomic.atomicWrite string "/" (λ p, "ENOENT: " +:+ p)
        Examples.rename_refused "0b6f" "/plans/plan.md" "new" fs).2
     = Returned "/plans/plan.md"
     ∧ (Atomic.atomicWrite string "/" (λ p, "ENOENT: " +:+ p)
          Examples.rename_refused "0b6f" "/plans/plan.md" "new" fs).1
       !! key "/" (tempPath "0b6f" "/plans/plan.md") = None).
Proof.
  intros fs.
  apply (atomicWrite_touches_target_and_temp_only string "/"
           (λ p, "ENOENT: " +:+ p) Examples.rename_refused "0b6f" fs
           "/plans/plan.md" "new").
  vm_compute. discriminate.
Defined.

End AtomicFrame.

(** ** Which slug the allocator picks, and what the savers write *)

Module SlugFacts.
Import Storage.

Section Slugs.

Variable cwd homedir : string.
Variable fs : gmap string string.
Variable now : N.
Variable today : string.
Variable extractFirstHeading : string → option string.
Variable sanitizeTag : string → string.
Variable mkdir_fault : option string.

Local Abbreviation next_free := (next_free cwd fs now).
Local Abbreviation taken := (taken cwd fs).
Local Abbreviation generateSlug :=
  (generateSlug today extractFirstHeading sanitizeTag).
Local Abbreviation getPlanDir := (getPlanDir homedir mkdir_fault).
Local Abbreviation generateUniqueSlug :=
  (generateUniqueSlug cwd homedir fs now today extractFirstHeading
     sanitizeTag mkdir_fault).

Lemma next_free_least planDir baseSlug counter k :
  counter ≤ k < 1000 →
  taken planDir (baseSlug +:+ "-" +:+ Js.of_nat k) = false →
  (∀ i, counter ≤ i < k →
     taken planDir (baseSlug +:+ "-" +:+ Js.of_nat i) = true) →
  next_free planDir baseSlug counter = baseSlug +:+ "-" +:+ Js.of_nat k.
Proof.
  funelim (Storage.next_free cwd fs now planDir baseSlug counter);
    intros Hk Hfree Hbelow; [|lia].
  cbn zeta. unfold Storage.taken in *.
  destruct (decide (counter = k)) as [->|Hne].
  - by rewrite Hfree.
  - rewrite (Hbelow counter) by lia. cbn [negb]. apply H; [lia|done|].
    intros i Hi. apply Hbelow. lia.
Qed.

(** X20.  The allocator counts up from 2: with the storage directory there
    and the base slug taken, the slug returned is the variant with the
    least number from 2 to 999 that is free. *)
Theorem generateUniqueSlug_least_free plan customPath planDir k :
  getPlanDir customPath = Ok planDir →
  taken planDir (generateSlug plan) = true →
  2 ≤ k < 1000 →
  taken planDir (generateSlug plan +:+ "-" +:+ Js.of_nat k) = false →
  (∀ i, 2 ≤ i < k →
     taken planDir (generateSlug plan +:+ "-" +:+ Js.of_nat i) = true) →
  generateUniqueSlug plan customPath
  = Ok (generateSlug plan +:+ "-" +:+ Js.of_nat k).
Proof.
  intros Hdir Hbase Hk Hfree Hbelow.
  unfold Storage.generateUniqueSlug. rewrite Hdir.
  cbn [mbind result_bind]. unfold Storage.taken in Hbase. rewrite Hbase.
  cbn [negb]. f_equal. by apply next_free_least.
Qed.

End Slugs.

Lemma generateUniqueSlug_least_free_witness :
  generateUniqueSlug "/"  "/home/u"
    {[ "/home/u/plans/2026-01-01-plan.md" := "first";
       "/home/u/plans/2026-01-01-plan-2.md" := "second" ]}
    1767225600000 "2026-01-01" (λ _, None) (λ tag, tag) None
    "no heading" (Some "~/plans")
  = Ok (generateSlug "2026-01-01" (λ _, None) (λ tag, tag) "no heading"
        +:+ "-" +:+ Js.of_nat 3).
Proof.
  apply (generateUniqueSlug_least_free "/"  "/home/u"
           {[ "/home/u/plans/2026-01-01-plan.md" := "first";
              "/home/u/plans/2026-01-01-plan-2.md" := "second" ]}
           1767225600000 "2026-01-01" (λ _, None) (λ tag, tag) None
           "no heading" (Some "~/plans") "/home/u/plans" 3).
  - reflexivity.
  - by vm_compute.
  - lia.
  - by vm_compute.
  - intros i Hi. assert (i = 2) as -> by lia. by vm_compute.
Defined.

End SlugFacts.

(** ** The savers of the plan directory *)

Module SaveFacts.
Import StringFacts StorageSave.

Section Savers.

Variable cwd homedir : string.
Variable dir_fault : option string.
Variable faults : Atomic.Faults string.
Variable enoent : string → string.
Variable uuid : string.

Local Abbreviation getPlanDir := (Storage.getPlanDir homedir dir_fault).
Local Abbreviation savePlan :=
  (savePlan cwd homedir dir_fault faults enoent uuid).
Local Abbreviation saveFinalSnapshot :=
  (saveFinalSnapshot cwd homedir dir_fault faults enoent uuid).

(** What a saver does once the plan directory is there and nothing
    is refused. *)
Lemma in_plan_dir_unrefused customPath planDir name content fs :
  getPlanDir customPath = Ok planDir →
  Atomic.first_failure string faults = None →
  ∃ fs',
    in_plan_dir homedir dir_fault customPath
      (λ dir, atomicWrite cwd faults enoent uuid
                (Path.join [dir; name]) content) fs
    = (fs', Atomic.Returned (Path.join [planDir; name]))
    ∧ Fs.read cwd fs' (Path.join [planDir; name]) = Some content.
Proof.
  intros Hdir Hok. unfold in_plan_dir. rewrite Hdir.
  unfold atomicWrite. rewrite AtomicFrame.atomicWrite_unrefused by done.
  eexists. split; [done|]. unfold Fs.read, Atomic.key.
  apply lookup_insert_eq.
Qed.

(** X21.  Saving a plan under a slug, when nothing is refused, returns the
    path of the plan file of that slug and puts the content there; and
    the allocator then no longer hands that slug out for the directory,
    except as the variant numbered with the current millisecond, which
    it returns without a look at the directory. *)
Theorem saved_slug_not_handed_out_again slug content customPath planDir fs :
  getPlanDir customPath = Ok planDir →
  Atomic.first_failure string faults = None →
  ∃ fs',
    savePlan slug content customPath fs
    = (fs', Atomic.Returned (Path.join [planDir; slug +:+ ".md"]))
    ∧ Fs.read cwd fs' (Path.join [planDir; slug +:+ ".md"]) = Some content
    ∧ ∀ now today extractFirstHeading sanitizeTag plan,
        Storage.generateUniqueSlug cwd homedir fs' now today
          extractFirstHeading sanitizeTag dir_fault plan customPath = Ok slug →
        slug = Storage.generateSlug today extractFirstHeading sanitizeTag plan
               +:+ "-" +:+ Js.of_N now.
Proof.
  intros Hdir Hok.
  destruct (in_plan_dir_unrefused customPath planDir (slug +:+ ".md") content
              fs Hdir Hok) as (fs' & Hrun & Hread).
  exists fs'. split_and!; [done..|].
  assert (Storage.taken cwd fs' planDir slug = true) as Htaken.
  { unfold Storage.taken, Storage.existsSync, Fs.exists_. rewrite Hread.
    by apply bool_decide_eq_true_2. }
  intros now today extractFirstHeading sanitizeTag plan.
  unfold Storage.generateUniqueSlug. rewrite Hdir. cbn [mbind result_bind].
  destruct (Storage.existsSync cwd fs' _) eqn:Hbase; cbn [negb].
  - intros [= Hslug].
    destruct (StorageFacts.next_free_spec cwd fs' now planDir
                (Storage.generateSlug today extractFirstHeading sanitizeTag plan)
                2) as [Hfree|[Hlast _]].
    + cbn zeta in Hfree. rewrite Hslug in Hfree. congruence.
    + cbn zeta in Hlast. by rewrite <- Hslug.
  - intros [= Hslug]. unfold Storage.taken in Htaken. rewrite <- Hslug in Htaken.
    congruence.
Qed.

(** X22.  The final snapshot, when nothing is refused, is written to the
    file named by the slug and the status; it starts with the plan,
    and is the plan alone exactly when the diff is empty or is the
    no-changes text. *)
Theorem saveFinalSnapshot_starts_with_plan slug status plan diff customPath
    planDir fs :
  getPlanDir customPath = Ok planDir →
  Atomic.first_failure string faults = None →
  ∃ fs' written,
    saveFinalSnapshot slug status plan diff customPath fs
    = (fs', Atomic.Returned
              (Path.join [planDir; slug +:+ "-" +:+ status_text status +:+ ".md"]))
    ∧ Fs.read cwd fs'
        (Path.join [planDir; slug +:+ "-" +:+ status_text status +:+ ".md"])
      = Some written
    ∧ Js.startsWith written plan = true
    ∧ (written = plan ↔ diff = "" ∨ diff = "No changes detected.").
Proof.
  intros Hdir Hok.
  destruct (in_plan_dir_unrefused customPath planDir
              (slug +:+ "-" +:+ status_text status +:+ ".md")
              (snapshot_content plan diff) fs Hdir Hok) as (fs' & Hrun & Hread).
  exists fs', (snapshot_content plan diff). split_and!; [done..| |].
  - unfold snapshot_content, Js.startsWith.
    destruct (_ && _); [apply prefix_app|].
    rewrite <- (sapp_empty_r plan) at 2. apply prefix_app.
  - unfold snapshot_content.
    do 2 case_bool_decide; cbn [negb andb]; try (split; [by auto|done]).
    split; [|by intros [|]].
    intros Heq. apply (f_equal String.length) in Heq.
    rewrite !UploadFacts.length_sapp in Heq.
    destruct diff; [done|]. simpl in Heq. lia.
Qed.

End Savers.

Lemma saved_slug_not_handed_out_again_witness :
  ∃ fs',
    StorageSave.savePlan "/" "/home/u" None
      {| Atomic.mkdir_fault := None; Atomic.write_fault := None;
         Atomic.rename_fault := None; Atomic.unlink_fault := None |}
      (λ p, "ENOENT: " +:+ p) "0b6f" "2026-01-01-plan" "# Plan"
      (Some "~/plans") ∅
    = (fs', Atomic.Returned
              (Path.join ["/home/u/plans"; "2026-01-01-plan" +:+ ".md"]))
    ∧ Fs.read "/" fs' (Path.join ["/home/u/plans"; "2026-01-01-plan" +:+ ".md"])
      = Some "# Plan"
    ∧ ∀ now today extractFirstHeading sanitizeTag plan,
        Storage.generateUniqueSlug "/" "/home/u" fs' now today
          extractFirstHeading sanitizeTag None plan (Some "~/plans")
        = Ok "2026-01-01-plan" →
        "2026-01-01-plan"
        = Storage.generateSlug today extractFirstHeading sanitizeTag plan
          +:+ "-" +:+ Js.of_N now.
Proof.
  apply (saved_slug_not_handed_out_again "/" "/home/u" None
           {| Atomic.mkdir_fault := None; Atomic.write_fault := None;
              Atomic.rename_fault := None; Atomic.unlink_fault := None |}
           (λ p, "ENOENT: " +:+ p) "0b6f" "2026-01-01-plan" "# Plan"
           (Some "~/plans") "/home/u/plans" ∅).
  - reflexivity.
  - reflexivity.
Defined.

Lemma saveFinalSnapshot_starts_with_plan_witness :
  ∃ fs' written,
    StorageSave.saveFinalSnapshot "/" "/home/u" None
      {| Atomic.mkdir_fault := None; Atomic.write_fault := None;
         Atomic.rename_fault := None; Atomic.unlink_fault := None |}
      (λ p, "ENOENT: " +:+ p) "0b6f" "2026-01-01-plan" denied "# Plan"
      "- a line" (Some "~/plans") ∅
    = (fs', Atomic.Returned
              (Path.join ["/home/u/plans";
                          "2026-01-01-plan" +:+ "-" +:+ status_text denied
                          +:+ ".md"]))
    ∧ Fs.read "/" fs'
        (Path.join ["/home/u/plans";
                    "2026-01-01-plan" +:+ "-" +:+ status_text denied +:+ ".md"])
      = Some written
    ∧ Js.startsWith written "# Plan" = true
    ∧ (written = "# Plan" ↔ "- a line" = "" ∨ "- a line" = "No changes detected.").
Proof.
  apply (saveFinalSnapshot_starts_with_plan "/" "/home/u" None
           {| Atomic.mkdir_fault := None; Atomic.write_fault := None;
              Atomic.rename_fault := None; Atomic.unlink_fault := None |}
           (λ p, "ENOENT: " +:+ p) "0b6f" "2026-01-01-plan" denied "# Plan"
           "- a line" (Some "~/plans") "/home/u/plans" ∅).
  - reflexivity.
  - reflexivity.
Defined.

End SaveFacts.
